(** * zap: the Logger facade, its facilities and the spy sink

    A shallow embedding of [logger.go], [options.go], the facility file
    ([Facility], [ioFacility]) and [spy/logger.go], followed by the
    properties of the record pipeline: gating, hooks, delivery, flushing,
    derivation with [With] and the escalation of [DPanic], [Panic] and
    [Fatal].

    Go values become Rocq values as follows.
    - [[]Field] slices are triples (array, len, cap) over a heap of backing
      arrays, with [append] writing in place when the capacity allows it.
    - interface values ([Facility], [LevelEnabler], [Encoder]) are a type
      class, a closed variant and a record of the capability's responses.
    - a method that can panic or exit runs in the monad [M], whose outcome
      is a normal return, a panic or a process exit.
    - calls on collaborators (the facility's [Log], [fmt.Fprintf] and [Sync]
      on a [WriteSyncer], the encoder's [WriteEntry] and [Free], [panic],
      [_exit]) are appended to a trace, in program order. *)

From stdpp Require Import base option list strings gmap.
From Stdlib Require Import ZArith.

Local Open Scope Z_scope.
Local Open Scope nat_scope.

(** ** Levels *)

(** Modelled from the spec: the declaration of [Level] and of its constants
    is missing from the sources.  The spec gives the totally ordered
    enumeration Debug < Info < Warn < Error < DPanic < Panic < Fatal; the
    integer ranks only carry that order. *)
Inductive Level : Type :=
  | DebugLevel | InfoLevel | WarnLevel | ErrorLevel
  | DPanicLevel | PanicLevel | FatalLevel.

Definition Level_rank (l : Level) : Z :=
  match l with
  | DebugLevel => -1
  | InfoLevel => 0
  | WarnLevel => 1
  | ErrorLevel => 2
  | DPanicLevel => 3
  | PanicLevel => 4
  | FatalLevel => 5
  end.

Global Instance Level_eq_dec : EqDecision Level.
Proof. solve_decision. Defined.

(** [a > b] on levels, as in [ent.Level > ErrorLevel]. *)
Definition Level_gtb (a b : Level) : bool := (Level_rank b <? Level_rank a)%Z.

(** Modelled from the spec: the method [Enabled] of [Level] is missing from
    the sources.  The fixed threshold "returns true iff severity >=
    threshold". *)
Definition Level_Enabled (l lvl : Level) : bool :=
  (Level_rank l <=? Level_rank lvl)%Z.

(** ** Plain data *)

Abbreviation Time := Z (only parsing).
Abbreviation error := string (only parsing).

(** Modelled from the spec: the declaration of [Field] is missing from the
    sources.  A field is an opaque key/value pair which the core only stores
    and forwards. *)
Record Field : Type := mkField { Key : string; Value : string }.

Global Instance Field_eq_dec : EqDecision Field.
Proof. solve_decision. Defined.

(** The zero value of [Field], found in the unused part of a backing array. *)
Definition zeroField : Field := mkField "" "".

(** A [WriteSyncer] is an interface value compared by identity: a handle. *)
Abbreviation WriteSyncer := nat (only parsing).

(** ** Slices of fields *)

Module slices.

(** A slice header: backing array, length and capacity. *)
Record slice : Type := Slice { s_arr : nat; s_len : nat; s_cap : nat }.

(** The nil slice. *)
Definition nilSlice : slice := Slice 0 0 0.

(** The heap of backing arrays; an array is as long as its capacity. *)
Abbreviation Heap := (list (list Field)).

Definition array_at (h : Heap) (a : nat) : list Field := default [] (h !! a).

(** The elements [s[0:len(s)]]. *)
Definition elems (h : Heap) (s : slice) : list Field :=
  take (s_len s) (array_at h (s_arr s)).

(** How much spare capacity the runtime adds when [append] has to
    reallocate, from the old capacity and the needed length.  The language
    leaves it to the implementation. *)
Class GrowthPolicy := growslack : nat -> nat -> nat.

(** [make([]Field, 0, c)] *)
Definition make (c : nat) (h : Heap) : slice * Heap :=
  (Slice (length h) 0 c, h ++ [replicate c zeroField]).

(** [append(s, xs...)]: when the capacity suffices the elements are written
    behind [len(s)] into the array [s] points to, and the result shares
    that array; otherwise a new array is allocated and filled. *)
Definition append {G : GrowthPolicy} (s : slice) (xs : list Field) (h : Heap)
    : slice * Heap :=
  let n := s_len s + length xs in
  if n <=? s_cap s then
    (Slice (s_arr s) n (s_cap s),
     alter (list_inserts (s_len s) xs) (s_arr s) h)
  else
    let slack := growslack (s_cap s) n in
    (Slice (length h) n (n + slack),
     h ++ [elems h s ++ xs ++ replicate slack zeroField]).

(** A slice header is well formed in a heap when its length is within its
    capacity and, unless the capacity is zero, its array exists and has
    that capacity. *)
Definition wf (h : Heap) (s : slice) : Prop :=
  s_len s <= s_cap s /\
  (s_cap s <> 0 -> s_arr s < length h /\ length (array_at h (s_arr s)) = s_cap s).

End slices.

Import slices.

(** ** The state of the backends *)

(** A captured record of the spy sink ([spy.Log]).  [Fields] is a slice. *)
Record Log : Type := mkLog { Log_Level : Level; Log_Msg : string; Log_Fields : slice }.

(** What facilities own: the heap of backing arrays and the spy sinks, where
    a [*Sink] is a handle and an absent handle is a sink with no logs yet. *)
Record Backend : Type := mkBackend {
  b_heap : Heap;
  b_sinks : gmap nat (list Log)
}.

(** ** Calls on collaborators *)

(** Calls a facility makes on its encoder and its output. *)
Inductive IOCall : Type :=
  | IO_WriteEntry (out : WriteSyncer) (fields : list Field)
                  (msg : string) (lvl : Level) (t : Time)
  | IO_Free
  | IO_Sync (ws : WriteSyncer).

Global Instance IOCall_eq_dec : EqDecision IOCall.
Proof. solve_decision. Defined.

(** The trace of a run: the logger's call of its facility's [Log] (followed
    by the calls that facility makes), the logger's [fmt.Fprintf] to a
    [WriteSyncer], [panic] and [_exit]. *)
Inductive Event : Type :=
  | EvFacilityLog (t : Time) (lvl : Level) (msg : string) (fields : list Field)
  | EvFprintf (ws : WriteSyncer) (t : Time) (cause : string) (err : error)
  | EvIO (c : IOCall)
  | EvPanic (msg : string)
  | EvExit (code : Z).

Global Instance Event_eq_dec : EqDecision Event.
Proof. solve_decision. Defined.

(** ** The world and the monad of logger methods *)

Record World : Type := mkWorld {
  w_backend : Backend;
  w_levels : gmap nat Level;   (* the cells behind AtomicLevel values *)
  w_trace : list Event;
  w_clock : Time               (* what time.Now().UTC() returns next *)
}.

Inductive Outcome (A : Type) : Type :=
  | Ret (a : A)
  | Panicked (msg : string)
  | Exited (code : Z).
Arguments Ret {A} a.
Arguments Panicked {A} msg.
Arguments Exited {A} code.

Definition M (A : Type) : Type := World -> Outcome A * World.

Global Instance M_ret : MRet M := fun A a w => (Ret a, w).

Global Instance M_bind : MBind M := fun A B k m w =>
  match m w with
  | (Ret a, w') => k a w'
  | (Panicked msg, w') => (Panicked msg, w')
  | (Exited code, w') => (Exited code, w')
  end.

Definition emit (e : Event) : M unit := fun w =>
  (Ret (), mkWorld (w_backend w) (w_levels w) (w_trace w ++ [e]) (w_clock w)).

(** The clock advances with every reading. *)
Definition tick (w : World) : World :=
  mkWorld (w_backend w) (w_levels w) (w_trace w) (w_clock w + 1)%Z.

(** [time.Now().UTC()] *)
Definition Now : M Time := fun w => (Ret (w_clock w), tick w).

(** [panic(msg)] *)
Definition panic {A} (msg : string) : M A := fun w =>
  (Panicked msg,
   mkWorld (w_backend w) (w_levels w) (w_trace w ++ [EvPanic msg]) (w_clock w)).

(** [_exit(code)], which is [os.Exit] *)
Definition _exit {A} (code : Z) : M A := fun w =>
  (Exited code,
   mkWorld (w_backend w) (w_levels w) (w_trace w ++ [EvExit code]) (w_clock w)).

(** Run a backend operation that returns a value. *)
Definition on_backend {A} (f : Backend -> A * Backend) : M A := fun w =>
  let '(a, b) := f (w_backend w) in
  (Ret a, mkWorld b (w_levels w) (w_trace w) (w_clock w)).

(** ** Entries, facilities, level enablers, hooks *)

Record Entry (F : Type) : Type := mkEntry {
  ent_Time : Time;
  ent_Level : Level;
  ent_Message : string;
  ent_fac : option F
}.
Arguments mkEntry {F} _ _ _ _.
Arguments ent_Time {F} _.
Arguments ent_Level {F} _.
Arguments ent_Message {F} _.
Arguments ent_fac {F} _.

(** The [Facility] interface.  [Log] yields the calls the facility makes on
    its encoder and output, in order, and the new backend state.  The
    methods of a facility return normally; a facility that panics is not
    covered. *)
Class Facility (F : Type) : Type := {
  fac_With : F -> list Field -> Backend -> F * Backend;
  fac_Enabled : F -> Entry F -> bool;
  fac_Log : F -> Entry F -> list Field -> Backend -> list IOCall * Backend
}.

(** The [LevelEnabler] interface with the two implementations that
    [options.go] installs: a [Level], and an [AtomicLevel], which is a
    reference to a cell. *)
Inductive LevelEnabler : Type :=
  | FixedLevel (l : Level)
  | AtomicLevel (cell : nat).

(** Modelled from the spec: the declaration of [AtomicLevel] is missing from
    the sources.  It is a mutable cell holding the current threshold; a cell
    nobody has set holds Info, the default of [New]. *)
Definition AtomicLevel_Level (cell : nat) (w : World) : Level :=
  default InfoLevel (w_levels w !! cell).

Definition LevelEnabler_Enabled (le : LevelEnabler) (lvl : Level) : M bool :=
  fun w =>
    match le with
    | FixedLevel l => (Ret (Level_Enabled l lvl), w)
    | AtomicLevel cell => (Ret (Level_Enabled (AtomicLevel_Level cell w) lvl), w)
    end.

(** A [Hook] gets a pointer to the entry: it returns the entry as it left it
    and its error, if any. *)
Definition Hook (F : Type) : Type := Entry F -> Entry F * option error.

(** ** logger.go *)

Record Logger (F : Type) : Type := mkLogger {
  log_LevelEnabler : LevelEnabler;
  log_Facility : F;
  Development : bool;
  Hooks : list (Hook F);
  ErrorOutput : WriteSyncer
}.
Arguments mkLogger {F} _ _ _ _ _.
Arguments log_LevelEnabler {F} _.
Arguments log_Facility {F} _.
Arguments Development {F} _.
Arguments Hooks {F} _.
Arguments ErrorOutput {F} _.

Module Logger.
Section Methods.
Context {F : Type} {FF : Facility F}.

(** [log.InternalError(cause, err)] *)
Definition InternalError (log : Logger F) (cause : string) (err : error) : M unit :=
  t ← Now;
  emit (EvFprintf (ErrorOutput log) t cause err);;
  emit (EvIO (IO_Sync (ErrorOutput log))).

(** [log.With(fields...)] *)
Definition With (log : Logger F) (fields : list Field) : M (Logger F) :=
  fac ← on_backend (fac_With (log_Facility log) fields);
  mret {| log_LevelEnabler := log_LevelEnabler log;
          log_Facility := fac;
          Development := Development log;
          Hooks := Hooks log;
          ErrorOutput := ErrorOutput log |}.

(** The [default] arm of the switch in [Check]: [Some ent] stands for
    falling out of the switch, [None] for [return nil]. *)
Definition Check_default (log : Logger F) (lvl : Level) (ent : Entry F)
    : M (option (Entry F)) :=
  en ← LevelEnabler_Enabled (log_LevelEnabler log) lvl;
  if negb en then mret None
  else if negb (fac_Enabled (log_Facility log) ent) then mret None
  else mret (Some ent).

(** [log.Check(lvl, msg)]; the result is the [*Entry], [None] for nil. *)
Definition Check (log : Logger F) (lvl : Level) (msg : string)
    : M (option (Entry F)) :=
  t ← Now;
  let ent := mkEntry t lvl msg None in
  passed ←
    match lvl with
    | PanicLevel | FatalLevel => mret (Some ent)
    | DPanicLevel =>
        if Development log then mret (Some ent)
        else Check_default log lvl ent
    | _ => Check_default log lvl ent
    end;
  match passed with
  | None => mret None
  | Some ent =>
      mret (Some (mkEntry (ent_Time ent) (ent_Level ent) (ent_Message ent)
                          (Some (log_Facility log))))
  end.

(** The loop over [log.Hooks] in [Log]. *)
Fixpoint run_hooks (log : Logger F) (hooks : list (Hook F)) (ent : Entry F)
    : M (Entry F) :=
  match hooks with
  | [] => mret ent
  | hook :: rest =>
      let '(ent', err) := hook ent in
      match err with
      | Some e => InternalError log "hook" e
      | None => mret ()
      end;;
      run_hooks log rest ent'
  end.

(** The facility's [Log] runs: its calls join the trace. *)
Definition run_fac_Log (fac : F) (ent : Entry F) (fields : list Field)
    : M unit := fun w =>
  let '(calls, b) := fac_Log fac ent fields (w_backend w) in
  (Ret (), mkWorld b (w_levels w) (w_trace w ++ (EvIO <$> calls)) (w_clock w)).

(** The call [log.Facility.Log(ent, fields...)]. *)
Definition call_Facility_Log (fac : F) (ent : Entry F) (fields : list Field)
    : M unit :=
  emit (EvFacilityLog (ent_Time ent) (ent_Level ent) (ent_Message ent) fields);;
  run_fac_Log fac ent fields.

(** [log.Log(ent, fields...)] *)
Definition Log (log : Logger F) (ent : Entry F) (fields : list Field) : M unit :=
  en ← LevelEnabler_Enabled (log_LevelEnabler log) (ent_Level ent);
  if negb en then mret ()
  else if negb (fac_Enabled (log_Facility log) ent) then mret ()
  else
    let ent := mkEntry (ent_Time ent) (ent_Level ent) (ent_Message ent)
                       (Some (log_Facility log)) in
    ent ← run_hooks log (Hooks log) ent;
    call_Facility_Log (log_Facility log) ent fields.

(** [log.log(lvl, msg, fields...)] *)
Definition log (log : Logger F) (lvl : Level) (msg : string) (fields : list Field)
    : M unit :=
  t ← Now;
  Log log (mkEntry t lvl msg None) fields.

Definition Debug (l : Logger F) (msg : string) (fields : list Field) : M unit :=
  log l DebugLevel msg fields.

Definition Info (l : Logger F) (msg : string) (fields : list Field) : M unit :=
  log l InfoLevel msg fields.

Definition Warn (l : Logger F) (msg : string) (fields : list Field) : M unit :=
  log l WarnLevel msg fields.

Definition Error (l : Logger F) (msg : string) (fields : list Field) : M unit :=
  log l ErrorLevel msg fields.

Definition DPanic (l : Logger F) (msg : string) (fields : list Field) : M unit :=
  log l DPanicLevel msg fields;;
  if Development l then panic msg else mret ().

Definition Panic (l : Logger F) (msg : string) (fields : list Field) : M unit :=
  log l PanicLevel msg fields;;
  panic msg.

Definition Fatal (l : Logger F) (msg : string) (fields : list Field) : M unit :=
  log l FatalLevel msg fields;;
  _exit 1%Z.

End Methods.
End Logger.

(** ** The other draft of the logger file *)

(** The second logger file holds an earlier draft of the same methods.  Its
    [Check] gates in the same way and returns a [CheckedMessage] made by
    [NewCheckedMessage(log.Facility, Entry{...})], reading the clock only
    when the message passes. *)
Module Draft.
Section Methods.
Context {F : Type} {FF : Facility F}.

(** Modelled from the spec: the declaration of [CheckedMessage] and of
    [NewCheckedMessage] is missing from the sources.  It is the token of
    [check], "bound to the already-gated Facility": the facility with the
    entry. *)
Record CheckedMessage : Type := NewCheckedMessage { cm_fac : F; cm_ent : Entry F }.

(** [log.Check(lvl, msg)].  The entry shown to the facility's [Enabled] has
    level and message only, so its time is the zero time. *)
Definition Check (log : Logger F) (lvl : Level) (msg : string)
    : M (option CheckedMessage) :=
  let gate : M bool :=
    en ← LevelEnabler_Enabled (log_LevelEnabler log) lvl;
    mret (negb en
          || negb (fac_Enabled (log_Facility log) (mkEntry 0%Z lvl msg None))) in
  suppressed ←
    match lvl with
    | PanicLevel | FatalLevel => mret false
    | DPanicLevel => if Development log then mret false else gate
    | _ => gate
    end;
  if (suppressed : bool) then mret None
  else
    t ← Now;
    mret (Some (NewCheckedMessage (log_Facility log) (mkEntry t lvl msg None))).

(** The severity methods of the draft hand an entry to the facility right
    away: [log.Facility.Log(Entry{Time: time.Now().UTC(), Level: ...,
    Message: msg}, fields...)]. *)
Definition Debug (log : Logger F) (msg : string) (fields : list Field) : M unit :=
  t ← Now;
  Logger.call_Facility_Log (log_Facility log) (mkEntry t DebugLevel msg None) fields.

Definition Info (log : Logger F) (msg : string) (fields : list Field) : M unit :=
  t ← Now;
  Logger.call_Facility_Log (log_Facility log) (mkEntry t InfoLevel msg None) fields.

Definition Warn (log : Logger F) (msg : string) (fields : list Field) : M unit :=
  t ← Now;
  Logger.call_Facility_Log (log_Facility log) (mkEntry t WarnLevel msg None) fields.

Definition Error (log : Logger F) (msg : string) (fields : list Field) : M unit :=
  t ← Now;
  Logger.call_Facility_Log (log_Facility log) (mkEntry t ErrorLevel msg None) fields.

Definition DPanic (log : Logger F) (msg : string) (fields : list Field) : M unit :=
  t ← Now;
  Logger.call_Facility_Log (log_Facility log) (mkEntry t DPanicLevel msg None) fields;;
  if Development log then panic msg else mret ().

Definition Panic (log : Logger F) (msg : string) (fields : list Field) : M unit :=
  t ← Now;
  Logger.call_Facility_Log (log_Facility log) (mkEntry t PanicLevel msg None) fields;;
  panic msg.

Definition Fatal (log : Logger F) (msg : string) (fields : list Field) : M unit :=
  t ← Now;
  Logger.call_Facility_Log (log_Facility log) (mkEntry t FatalLevel msg None) fields;;
  _exit 1%Z.

End Methods.
End Draft.

(** ** options.go *)

(** An [Option] is applied to the freshly built logger.  [Fields] and
    [Output] address an encoder and an output which this [Logger] no longer
    has, so they are left out. *)
Definition Option (F : Type) : Type := Logger F -> Logger F.

(** [func (l Level) apply(m *Logger) { m.LevelEnabler = l }] *)
Definition Level_apply {F} (l : Level) : Option F := fun m =>
  mkLogger (FixedLevel l) (log_Facility m) (Development m) (Hooks m) (ErrorOutput m).

(** [func (lvl AtomicLevel) apply(m *Logger) { m.LevelEnabler = lvl }] *)
Definition AtomicLevel_apply {F} (cell : nat) : Option F := fun m =>
  mkLogger (AtomicLevel cell) (log_Facility m) (Development m) (Hooks m) (ErrorOutput m).

(** [ErrorOutput(w)]; the lock around [w] does not change where bytes go. *)
Definition ErrorOutput_option {F} (w : WriteSyncer) : Option F := fun m =>
  mkLogger (log_LevelEnabler m) (log_Facility m) (Development m) (Hooks m) w.

(** [Development()] *)
Definition Development_option {F} : Option F := fun m =>
  mkLogger (log_LevelEnabler m) (log_Facility m) true (Hooks m) (ErrorOutput m).

Definition Stdout : WriteSyncer := 1.
Definition Stderr : WriteSyncer := 2.

(** [New(fac, options...)], for a facility that is not nil. *)
Definition New {F} (fac : F) (options : list (Option F)) : Logger F :=
  foldl (fun log opt => opt log) (mkLogger (FixedLevel InfoLevel) fac false [] Stderr)
        options.

(** ** spy/logger.go *)

Module spy.

(** [s.logs] of the sink behind a handle. *)
Definition Sink_logs (b : Backend) (s : nat) : list Log :=
  default [] (b_sinks b !! s).

(** [s.WriteLog(lvl, msg, fields)], as one caller sees it; the lock is the
    subject of the section on concurrent callers.  Nothing but this
    [append] touches [s.logs], so the slice is kept as the list of its
    elements. *)
Definition WriteLog (s : nat) (lvl : Level) (msg : string) (fields : slice)
    (b : Backend) : Backend :=
  let log := mkLog lvl msg fields in
  mkBackend (b_heap b) (<[s := Sink_logs b s ++ [log]]> (b_sinks b)).

(** [s.Logs()] *)
Definition Logs (s : nat) (b : Backend) : list Log := Sink_logs b s.

Record spyFacility : Type := mkSpy { sf_sink : nat; sf_context : slice }.

Section Methods.
Context {G : GrowthPolicy}.

(** [sf.With(fields...)] *)
Definition With (sf : spyFacility) (fields : list Field) (b : Backend)
    : spyFacility * Backend :=
  let '(context, h) := append (sf_context sf) fields (b_heap b) in
  (mkSpy (sf_sink sf) context, mkBackend h (b_sinks b)).

Definition Enabled (sf : spyFacility) (ent : Entry spyFacility) : bool := true.

(** [sf.Log(ent, fields...)] *)
Definition Log (sf : spyFacility) (ent : Entry spyFacility)
    (fields : list Field) (b : Backend) : list IOCall * Backend :=
  let '(all, h) := make (length fields + s_len (sf_context sf)) (b_heap b) in
  let '(all, h) := append all (elems h (sf_context sf)) h in
  let '(all, h) := append all fields h in
  ([], WriteLog (sf_sink sf) (ent_Level ent) (ent_Message ent) all
         (mkBackend h (b_sinks b))).

Global Instance spyFacility_Facility : Facility spyFacility :=
  {| fac_With := With; fac_Enabled := Enabled; fac_Log := Log |}.
End Methods.

(** The backend together with the sinks that exist: the [*Sink] pointers
    that have been handed out.  The backend alone does not tell a sink
    without logs from a handle that is not in use, so the sinks that exist
    are kept beside it; a facility that exists holds one of them. *)
Record Store : Type := mkStore { st_backend : Backend; st_sinks : gset nat }.

(** [New(options...)]: [&Sink{}] is a pointer that differs from every sink
    that exists (and from every handle that has logs), and its logs are
    empty; the facility starts with the nil context.  The result is the
    logger and its sink. *)
Definition New (options : list (Option spyFacility)) (st : Store)
    : (Logger spyFacility * nat) * Store :=
  let s := fresh (st_sinks st ∪ dom (b_sinks (st_backend st))) in
  ((New (mkSpy s nilSlice) options, s),
   mkStore (st_backend st) ({[s]} ∪ st_sinks st)).

End spy.

(** ** The facility file: ioFacility *)

(** Modelled from the spec: the declaration of [Encoder] and of
    [addFields] is missing from the sources.  The encoding capability has
    [Clone], [addFields], [WriteEntry] and [Free].  An encoder
    holds the fields merged into it so far; [enc_err] is the error its
    [WriteEntry] returns, if any.  A clone shares nothing with its
    original. *)
Record Encoder : Type := mkEncoder {
  enc_fields : list Field;
  enc_err : list Field -> string -> Level -> Time -> option error
}.

Definition Encoder_Clone (enc : Encoder) : Encoder := enc.

Definition addFields (enc : Encoder) (fields : list Field) : Encoder :=
  mkEncoder (enc_fields enc ++ fields) (enc_err enc).

(** [enc.WriteEntry(sink, msg, lvl, t)]: the error and the call made. *)
Definition Encoder_WriteEntry (enc : Encoder) (sink : WriteSyncer) (msg : string)
    (lvl : Level) (t : Time) : option error * list IOCall :=
  (enc_err enc (enc_fields enc) msg lvl t,
   [IO_WriteEntry sink (enc_fields enc) msg lvl t]).

Definition Encoder_Free (enc : Encoder) : list IOCall := [IO_Free].

Module io.

Record ioFacility : Type := mkIO { iof_Encoder : Encoder; iof_Output : WriteSyncer }.

(** [newIOFacility(enc, out)]; the lock put around [os.Stdout] does not
    change where bytes go. *)
Definition newIOFacility (enc : Encoder) (out : option WriteSyncer) : ioFacility :=
  mkIO enc (default Stdout out).

(** [iof.With(fields...)] *)
Definition With (iof : ioFacility) (fields : list Field) (b : Backend)
    : ioFacility * Backend :=
  let enc := Encoder_Clone (iof_Encoder iof) in
  let enc := addFields enc fields in
  (mkIO enc (iof_Output iof), b).

Definition Enabled (iof : ioFacility) (ent : Entry ioFacility) : bool := true.

(** [iof.Log(ent, fields...)].  The branch taken on an error of
    [WriteEntry] is empty in the source: its report is commented out. *)
Definition Log (iof : ioFacility) (ent : Entry ioFacility) (fields : list Field)
    (b : Backend) : list IOCall * Backend :=
  let enc := Encoder_Clone (iof_Encoder iof) in
  let enc := addFields enc fields in
  let '(err, written) :=
    Encoder_WriteEntry enc (iof_Output iof) (ent_Message ent) (ent_Level ent)
                       (ent_Time ent) in
  let reported : list IOCall :=
    match err with
    | Some _ => []
    | None => []
    end in
  let freed := Encoder_Free enc in
  let synced :=
    if Level_gtb (ent_Level ent) ErrorLevel then [IO_Sync (iof_Output iof)]
    else [] in
  (written ++ reported ++ freed ++ synced, b).

Global Instance ioFacility_Facility : Facility ioFacility :=
  {| fac_With := With; fac_Enabled := Enabled; fac_Log := Log |}.

End io.

(** ** Concurrent callers of [Sink.WriteLog] *)

(** [WriteLog] is four steps under an arbitrary scheduler: [s.Lock()], the
    read of [s.logs] for [append], the assignment to [s.logs], [s.Unlock()].
    A thread has a list of pending calls, each given by the record it
    writes; the head of the list is the call in progress. *)
Module interleaving.

Inductive pc : Type :=
  | Idle                          (* before [s.Lock()] *)
  | Locked                        (* holds the lock, has not read [s.logs] *)
  | Appending (snap : list Log)   (* has read [s.logs], has not assigned *)
  | Unlocking.                    (* has assigned, before [s.Unlock()] *)

Record thread : Type := mkThread { th_pc : pc; th_calls : list Log }.

Record state : Type := mkState {
  mu : bool;                (* is the mutex of the sink held? *)
  logs : list Log;          (* [s.logs] *)
  threads : list thread
}.

(** Thread [i] takes its next step, if it can: [Lock] waits while the mutex
    is held, and a thread without pending calls has finished. *)
Definition step (i : nat) (st : state) : option state :=
  match threads st !! i with
  | None => None
  | Some th =>
      match th_pc th, th_calls th with
      | _, [] => None
      | Idle, _ :: _ =>
          if mu st then None
          else Some (mkState true (logs st)
                       (<[i := mkThread Locked (th_calls th)]> (threads st)))
      | Locked, _ :: _ =>
          Some (mkState (mu st) (logs st)
                  (<[i := mkThread (Appending (logs st)) (th_calls th)]> (threads st)))
      | Appending snap, c :: _ =>
          Some (mkState (mu st) (snap ++ [c])
                  (<[i := mkThread Unlocking (th_calls th)]> (threads st)))
      | Unlocking, _ :: rest =>
          Some (mkState false (logs st) (<[i := mkThread Idle rest]> (threads st)))
      end
  end.

(** A schedule names the thread that moves at each step. *)
Fixpoint run (sched : list nat) (st : state) : option state :=
  match sched with
  | [] => Some st
  | i :: rest =>
      match step i st with
      | Some st' => run rest st'
      | None => None
      end
  end.

(** The callers start idle, with the lock free. *)
Definition init (logs0 : list Log) (calls : list (list Log)) : state :=
  mkState false logs0 (mkThread Idle <$> calls).

Definition finished (th : thread) : bool :=
  match th_pc th, th_calls th with
  | Idle, [] => true
  | _, _ => false
  end.

Definition done (st : state) : bool := forallb finished (threads st).

(** The calls of a thread whose record is not in [s.logs] yet. *)
Definition remaining (th : thread) : list Log :=
  match th_pc th with
  | Unlocking => tail (th_calls th)
  | _ => th_calls th
  end.

Definition idle (th : thread) : Prop := th_pc th = Idle.

(** A thread inside the critical section has a call in progress, and what
    it read from [s.logs] is still there. *)
Definition inside (st : state) (th : thread) : Prop :=
  th_calls th <> [] /\
  match th_pc th with
  | Idle => False
  | Appending snap => snap = logs st
  | _ => True
  end.

(** [Interleave ls l]: [l] takes the elements of the lists [ls], each list
    in its own order, and nothing else. *)
Inductive Interleave {A : Type} : list (list A) -> list A -> Prop :=
  | Interleave_nil ls : Forall (fun l => l = []) ls -> Interleave ls []
  | Interleave_cons ls i x rest l :
      ls !! i = Some (x :: rest) ->
      Interleave (<[i := rest]> ls) l ->
      Interleave ls (x :: l).

(** The invariant of the runs.  The sink holds what it started with and
    then records of the calls, such that every way of writing the
    outstanding records completes the sink to an interleaving of all calls;
    and the mutex is held exactly when one thread, and no other, is inside. *)
Definition Inv (logs0 : list Log) (calls : list (list Log)) (st : state) : Prop :=
  (exists written,
      logs st = logs0 ++ written
      /\ forall l, Interleave (remaining <$> threads st) l ->
                   Interleave calls (written ++ l))
  /\ if mu st then
       exists i th, threads st !! i = Some th /\ inside st th
         /\ forall j th', j <> i -> threads st !! j = Some th' -> idle th'
     else Forall idle (threads st).

(** The steps a thread still has to take. *)
Definition work_of (th : thread) : nat :=
  4 * length (th_calls th)
  - match th_pc th with
    | Idle => 0
    | Locked => 1
    | Appending _ => 2
    | Unlocking => 3
    end.

Definition work (st : state) : nat := sum_list_with work_of (threads st).

End interleaving.

(** ** Reading a run *)

(** The events a run from [w] to [w'] added to the trace. *)
Definition new_events (w w' : World) : list Event :=
  drop (length (w_trace w)) (w_trace w').

Definition is_delivery (e : Event) : bool :=
  match e with
  | EvFacilityLog _ _ _ _ => true
  | _ => false
  end.

(** Was the facility's [Log] invoked? *)
Definition delivered (evs : list Event) : bool := existsb is_delivery evs.

(** An internal-error report with cause "hook" written to [ws]. *)
Definition is_hook_report (ws : WriteSyncer) (e : Event) : bool :=
  match e with
  | EvFprintf ws' _ cause _ => bool_decide (ws' = ws) && bool_decide (cause = "hook")
  | _ => false
  end.

Definition is_sync (c : IOCall) : bool :=
  match c with
  | IO_Sync _ => true
  | _ => false
  end.

Definition is_flush (e : Event) : bool :=
  match e with
  | EvIO (IO_Sync _) => true
  | _ => false
  end.

Definition is_exit (e : Event) : bool :=
  match e with
  | EvExit _ => true
  | _ => false
  end.

(** The threshold a level enabler stands for in a world. *)
Definition LevelEnabler_level (le : LevelEnabler) (w : World) : Level :=
  match le with
  | FixedLevel l => l
  | AtomicLevel cell => AtomicLevel_Level cell w
  end.

(** Both gates of [Log]: the logger's level enabler and the facility. *)
Definition gates_pass {F} {FF : Facility F} (l : Logger F) (ent : Entry F) (w : World)
    : bool :=
  Level_Enabled (LevelEnabler_level (log_LevelEnabler l) w) (ent_Level ent)
  && fac_Enabled (log_Facility l) ent.

(** The gating the spec describes: Panic and Fatal always proceed, DPanic
    proceeds in development mode, everything else must pass both gates. *)
Definition spec_proceeds {F} {FF : Facility F} (l : Logger F) (ent : Entry F) (w : World)
    : bool :=
  match ent_Level ent with
  | PanicLevel | FatalLevel => true
  | DPanicLevel => Development l || gates_pass l ent w
  | _ => gates_pass l ent w
  end.

(** The entry with its facility set, as [Log] and [Check] do. *)
Definition bound {F} (fac : F) (ent : Entry F) : Entry F :=
  mkEntry (ent_Time ent) (ent_Level ent) (ent_Message ent) (Some fac).

(** The hooks applied in list order, each to the entry the previous left. *)
Definition hooks_final {F} (hooks : list (Hook F)) (ent : Entry F) : Entry F :=
  foldl (fun e hook => (hook e).1) ent hooks.

(** The errors of the failing hooks, in order. *)
Fixpoint hooks_errors {F} (hooks : list (Hook F)) (ent : Entry F) : list error :=
  match hooks with
  | [] => []
  | hook :: rest =>
      match (hook ent).2 with
      | Some e => e :: hooks_errors rest (hook ent).1
      | None => hooks_errors rest (hook ent).1
      end
  end.

(** One report per error: the line and the flush of [InternalError]. *)
Fixpoint error_reports (ws : WriteSyncer) (cause : string) (t : Time)
    (errs : list error) : list Event :=
  match errs with
  | [] => []
  | e :: rest =>
      EvFprintf ws t cause e :: EvIO (IO_Sync ws)
        :: error_reports ws cause (t + 1)%Z rest
  end.

(** The logging call for a severity. *)
Definition call {F} {FF : Facility F} (l : Logger F) (s : Level) (msg : string)
    (fields : list Field) : M unit :=
  match s with
  | DebugLevel => Logger.Debug l msg fields
  | InfoLevel => Logger.Info l msg fields
  | WarnLevel => Logger.Warn l msg fields
  | ErrorLevel => Logger.Error l msg fields
  | DPanicLevel => Logger.DPanic l msg fields
  | PanicLevel => Logger.Panic l msg fields
  | FatalLevel => Logger.Fatal l msg fields
  end.

(** The logging call of the draft for a severity. *)
Definition Draft_call {F} {FF : Facility F} (l : Logger F) (s : Level) (msg : string)
    (fields : list Field) : M unit :=
  match s with
  | DebugLevel => Draft.Debug l msg fields
  | InfoLevel => Draft.Info l msg fields
  | WarnLevel => Draft.Warn l msg fields
  | ErrorLevel => Draft.Error l msg fields
  | DPanicLevel => Draft.DPanic l msg fields
  | PanicLevel => Draft.Panic l msg fields
  | FatalLevel => Draft.Fatal l msg fields
  end.

(** Does the method for a severity end in [panic] or [_exit]? *)
Definition escalates {F} (l : Logger F) (s : Level) : bool :=
  match s with
  | PanicLevel | FatalLevel => true
  | DPanicLevel => Development l
  | _ => false
  end.

(** The event with which the method for a severity ends, if it escalates. *)
Definition escalation {F} (l : Logger F) (s : Level) (msg : string) : list Event :=
  match s with
  | PanicLevel => [EvPanic msg]
  | FatalLevel => [EvExit 1%Z]
  | DPanicLevel => if Development l then [EvPanic msg] else []
  | _ => []
  end.

Definition is_escalation (e : Event) : bool :=
  match e with
  | EvPanic _ | EvExit _ => true
  | _ => false
  end.

Definition is_free (c : IOCall) : bool :=
  match c with
  | IO_Free => true
  | _ => false
  end.

(** The output a call of a facility addresses, if any. *)
Definition IOCall_target (c : IOCall) : option WriteSyncer :=
  match c with
  | IO_WriteEntry out _ _ _ _ => Some out
  | IO_Free => None
  | IO_Sync ws => Some ws
  end.

(** A captured record with its fields read from the heap. *)
Definition Log_view (b : Backend) (lg : Log) : Level * string * list Field :=
  (Log_Level lg, Log_Msg lg, elems (b_heap b) (Log_Fields lg)).

(** The records a run from [b] to [b'] added to the sink [s], as seen in [b']. *)
Definition new_logs (s : nat) (b b' : Backend) : list (Level * string * list Field) :=
  Log_view b' <$> drop (length (spy.Logs s b)) (spy.Logs s b').

(** The slice [all] that the spy facility's [Log] builds, and the heap it
    leaves. *)
Definition Log_all {G : GrowthPolicy} (sf : spy.spyFacility) (fs : list Field)
    (b : Backend) : slice * Heap :=
  let '(all, h) := make (length fs + s_len (spy.sf_context sf)) (b_heap b) in
  let '(all, h) := append all (elems h (spy.sf_context sf)) h in
  append all fs h.

(** ** Goroutines that log through one logger over the spy facility *)

(** The callers share a logger whose facility is a spy facility.  A call
    runs as the sequential code up to [WriteLog], and [WriteLog] runs as
    its four steps, which the scheduler may interleave with the steps of
    the other callers. *)
Module goroutines.
Section Machine.
Context {G : GrowthPolicy}.
Variable l : Logger spy.spyFacility.

(** A call [log.log(lvl, msg, fields...)]. *)
Record Call : Type := mkCall { c_Level : Level; c_Msg : string; c_Fields : list Field }.

(** [log.log(lvl, msg, fields...)] on a logger over the spy facility, up to
    the call [sf.sink.WriteLog(...)] at the end of the facility's [Log]:
    the clock, the two gates, the hooks, then the slice [all] that [Log]
    makes and fills.  The result is the record handed to [WriteLog], or
    [None] when a gate has closed and the call returns. *)
Definition log_to_WriteLog (c : Call) : M (option Log) :=
  t ← Now;
  let ent := mkEntry t (c_Level c) (c_Msg c) None in
  en ← LevelEnabler_Enabled (log_LevelEnabler l) (ent_Level ent);
  if negb en then mret None
  else if negb (spy.Enabled (log_Facility l) ent) then mret None
  else
    ent ← Logger.run_hooks l (Hooks l) (bound (log_Facility l) ent);
    emit (EvFacilityLog (ent_Time ent) (ent_Level ent) (ent_Message ent) (c_Fields c));;
    all ← on_backend (fun b =>
             let '(all, h) := Log_all (log_Facility l) (c_Fields c) b in
             (all, mkBackend h (b_sinks b)));
    mret (Some (mkLog (ent_Level ent) (ent_Message ent) all)).

(** Where a goroutine is in its call.  From [Waiting] on it is in
    [WriteLog] with the record [lg]. *)
Inductive pc : Type :=
  | Calling                                 (* in [log.log], before [WriteLog] *)
  | Waiting (lg : Log)                      (* before [s.Lock()] *)
  | Locked (lg : Log)                       (* holds the lock, has not read [s.logs] *)
  | Appending (lg : Log) (snap : list Log)  (* has read [s.logs], has not assigned *)
  | Unlocking.                              (* has assigned, before [s.Unlock()] *)

(** A goroutine with its pending calls; the head is the call in progress. *)
Record thread : Type := mkThread { th_pc : pc; th_calls : list Call }.

(** The goroutines share the world: the heap, the sinks, the clock, the
    trace, and the mutex of the sink. *)
Record state : Type := mkState {
  mu : bool;                (* is the mutex of the sink held? *)
  world : World;
  threads : list thread
}.

(** The sink of the logger's facility. *)
Definition sink : nat := spy.sf_sink (log_Facility l).

(** The assignment [s.logs = logs]. *)
Definition assign_logs (logs : list Log) (w : World) : World :=
  mkWorld (mkBackend (b_heap (w_backend w)) (<[sink := logs]> (b_sinks (w_backend w))))
          (w_levels w) (w_trace w) (w_clock w).

(** Goroutine [i] takes its next step, if it can: [Lock] waits while the
    mutex is held, and a goroutine without pending calls has returned.  The
    assignment stores the [append] to what the goroutine read. *)
Definition step (i : nat) (st : state) : option state :=
  match threads st !! i with
  | None => None
  | Some th =>
      match th_pc th, th_calls th with
      | _, [] => None
      | Calling, c :: rest =>
          match log_to_WriteLog c (world st) with
          | (Ret (Some lg), w) =>
              Some (mkState (mu st) w
                      (<[i := mkThread (Waiting lg) (th_calls th)]> (threads st)))
          | (Ret None, w) =>
              Some (mkState (mu st) w (<[i := mkThread Calling rest]> (threads st)))
          | _ => None
          end
      | Waiting lg, _ :: _ =>
          if mu st then None
          else Some (mkState true (world st)
                       (<[i := mkThread (Locked lg) (th_calls th)]> (threads st)))
      | Locked lg, _ :: _ =>
          Some (mkState (mu st) (world st)
                  (<[i := mkThread (Appending lg (spy.Logs sink (w_backend (world st))))
                                   (th_calls th)]> (threads st)))
      | Appending lg snap, _ :: _ =>
          Some (mkState (mu st) (assign_logs (snap ++ [lg]) (world st))
                  (<[i := mkThread Unlocking (th_calls th)]> (threads st)))
      | Unlocking, _ :: rest =>
          Some (mkState false (world st) (<[i := mkThread Calling rest]> (threads st)))
      end
  end.

(** A schedule names the goroutine that moves at each step. *)
Fixpoint run (sched : list nat) (st : state) : option state :=
  match sched with
  | [] => Some st
  | i :: rest =>
      match step i st with
      | Some st' => run rest st'
      | None => None
      end
  end.

(** The callers start before their first call, with the lock free. *)
Definition init (w : World) (calls : list (list Call)) : state :=
  mkState false w (mkThread Calling <$> calls).

Definition finished (th : thread) : bool :=
  match th_pc th, th_calls th with
  | Calling, [] => true
  | _, _ => false
  end.

Definition done (st : state) : bool := forallb finished (threads st).

(** The logger lets the level of the call through. *)
Definition enabled (w : World) (c : Call) : Prop :=
  Level_Enabled (LevelEnabler_level (log_LevelEnabler l) w) (c_Level c) = true.

(** [lg], read in [b], is the record of the call [c] on a facility with the
    context [ctx]: level and message as the hooks leave them, for the time
    the call read from the clock, and the context followed by the fields of
    the call. *)
Definition record_of (ctx : list Field) (b : Backend) (c : Call) (lg : Log) : Prop :=
  exists t : Time,
    let ent := hooks_final (Hooks l)
                 (bound (log_Facility l) (mkEntry t (c_Level c) (c_Msg c) None)) in
    Log_view b lg = (ent_Level ent, ent_Message ent, ctx ++ c_Fields c).

(** The calls of a goroutine whose record is not in [s.logs] yet. *)
Definition remaining (th : thread) : list Call :=
  match th_pc th with
  | Unlocking => tail (th_calls th)
  | _ => th_calls th
  end.

(** Outside the critical section, and inside it: what a goroutine inside
    read from [s.logs] is still there. *)
Definition outside (th : thread) : Prop :=
  match th_pc th with
  | Calling | Waiting _ => True
  | _ => False
  end.

Definition inside (st : state) (th : thread) : Prop :=
  th_calls th <> [] /\
  match th_pc th with
  | Locked _ | Unlocking => True
  | Appending _ snap => snap = spy.Logs sink (w_backend (world st))
  | _ => False
  end.

(** A record of a call whose fields are a well-formed slice. *)
Definition sound (ctx : list Field) (b : Backend) (c : Call) (lg : Log) : Prop :=
  wf (b_heap b) (Log_Fields lg) /\ record_of ctx b c lg.

(** The record a goroutine in [WriteLog] holds is that of its call in
    progress. *)
Definition holds_record (ctx : list Field) (b : Backend) (th : thread) : Prop :=
  match th_pc th with
  | Waiting lg | Locked lg | Appending lg _ =>
      exists c rest, th_calls th = c :: rest /\ sound ctx b c lg
  | _ => True
  end.

(** The invariant of the runs from the world [w0] with the calls [calls].
    The levels and the context of the facility are as at the start; the
    sink holds what it started with and then the records of calls, such
    that every way of writing the outstanding calls completes the written
    ones to an interleaving of all calls; and the mutex is held exactly
    when one goroutine, and no other, is inside. *)
Definition Inv (w0 : World) (calls : list (list Call)) (st : state) : Prop :=
  let ctx := elems (b_heap (w_backend w0)) (spy.sf_context (log_Facility l)) in
  let b := w_backend (world st) in
  w_levels (world st) = w_levels w0
  /\ (wf (b_heap b) (spy.sf_context (log_Facility l))
      /\ elems (b_heap b) (spy.sf_context (log_Facility l)) = ctx)
  /\ Forall (fun th => Forall (enabled w0) (th_calls th) /\ holds_record ctx b th)
            (threads st)
  /\ (exists written order,
        spy.Logs sink b = spy.Logs sink (w_backend w0) ++ written
        /\ Forall2 (sound ctx b) order written
        /\ forall l', interleaving.Interleave (remaining <$> threads st) l' ->
                      interleaving.Interleave calls (order ++ l'))
  /\ if mu st then
       exists i th, threads st !! i = Some th /\ inside st th
         /\ forall j th', j <> i -> threads st !! j = Some th' -> outside th'
     else Forall outside (threads st).

(** The steps a goroutine still has to take, at most. *)
Definition work_of (th : thread) : nat :=
  5 * length (th_calls th)
  - match th_pc th with
    | Calling => 0
    | Waiting _ => 1
    | Locked _ => 2
    | Appending _ _ => 3
    | Unlocking => 4
    end.

Definition work (st : state) : nat := sum_list_with work_of (threads st).

End Machine.
End goroutines.

(** ** Concrete worlds, loggers and hooks used in the examples *)

(** A growth policy in the style of the Go runtime for short slices:
    the new capacity is the larger of the needed length and twice the old
    capacity. *)
Definition doubling : GrowthPolicy := fun c n => Nat.max n (2 * c) - n.

Definition spyFac : Facility spy.spyFacility := @spy.spyFacility_Facility doubling.

Definition b0 : Backend := mkBackend [] ∅.
Definition w0 : World := mkWorld b0 ∅ [] 0%Z.

Definition fld (k : string) : Field := mkField k "v".

(** The spy facility of a fresh [spy.New], on sink 0. *)
Definition spy0 : spy.spyFacility := spy.mkSpy 0 nilSlice.

(** A backend with one array of capacity four holding two fields, a spy
    facility whose context is those two fields, and one whose context fills
    an array of its own. *)
Definition b_ab : Backend :=
  mkBackend [[fld "a"; fld "b"; zeroField; zeroField]; [fld "p"; fld "q"]] ∅.

Definition w_ab : World := mkWorld b_ab ∅ [] 0%Z.

Definition sf_ab : spy.spyFacility := spy.mkSpy 0 (Slice 0 2 4).

Definition sf_full : spy.spyFacility := spy.mkSpy 0 (Slice 1 2 2).

(** A hook that lowers the level of every entry to Info. *)
Definition quieting_hook {F} : Hook F := fun ent =>
  (mkEntry (ent_Time ent) InfoLevel (ent_Message ent) (ent_fac ent), None).

(** A hook that always fails, and one that rewrites the message. *)
Definition failing_hook {F} : Hook F := fun ent => (ent, Some "nope").

Definition shouting_hook {F} : Hook F := fun ent =>
  (mkEntry (ent_Time ent) (ent_Level ent) (ent_Message ent ++ "!") (ent_fac ent),
   None).

(** An encoder whose [WriteEntry] always fails, and one that never does. *)
Definition failing_encoder : Encoder :=
  mkEncoder [] (fun _ _ _ _ => Some "write failed").

Definition working_encoder : Encoder :=
  mkEncoder [] (fun _ _ _ _ => None).

(** * Properties *)

(** ** Slices: what [append] and [make] do to the heap *)

Section SliceFacts.
Context {G : GrowthPolicy}.
Implicit Types (h : Heap) (s : slice) (xs : list Field).

Lemma array_at_alter_inserts h a k xs :
  array_at (alter (list_inserts k xs) a h) a = list_inserts k xs (array_at h a).
Proof.
  unfold array_at. rewrite list_lookup_alter_eq.
  destruct (h !! a) as [arr|]; simpl; [done|].
  by rewrite list_inserts_nil.
Qed.

Lemma array_at_alter_ne h a a' (f : list Field -> list Field) :
  a <> a' -> array_at (alter f a h) a' = array_at h a'.
Proof. intros Hne. unfold array_at. by rewrite list_lookup_alter_ne. Qed.

Lemma array_at_app_l h l a : a < length h -> array_at (h ++ l) a = array_at h a.
Proof. intros Hlt. unfold array_at. by rewrite lookup_app_l. Qed.

Lemma array_at_app_new h (arr : list Field) : array_at (h ++ [arr]) (length h) = arr.
Proof. unfold array_at. by rewrite list_lookup_middle. Qed.

Lemma take_inserts_below (arr : list Field) k xs n :
  n <= k -> take n (list_inserts k xs arr) = take n arr.
Proof.
  intros Hle. apply list_eq. intros i.
  destruct (decide (i < n)) as [Hi|Hi].
  - rewrite !lookup_take_lt by done. apply list_lookup_inserts_lt. lia.
  - rewrite !lookup_take_ge by lia. done.
Qed.

Lemma take_inserts_written (arr : list Field) k xs :
  k + length xs <= length arr ->
  take (k + length xs) (list_inserts k xs arr) = take k arr ++ xs.
Proof.
  intros Hle. apply list_eq. intros i.
  assert (Hk : length (take k arr) = k) by (rewrite length_take; lia).
  destruct (decide (i < k)) as [Hi|Hi].
  - rewrite lookup_take_lt by lia.
    rewrite list_lookup_inserts_lt by done.
    rewrite lookup_app_l by lia. by rewrite lookup_take_lt.
  - destruct (decide (i < k + length xs)) as [Hi2|Hi2].
    + rewrite lookup_take_lt by done.
      rewrite list_lookup_inserts by lia.
      rewrite lookup_app_r by lia. by rewrite Hk.
    + rewrite lookup_take_ge by lia.
      symmetry. apply lookup_ge_None_2. rewrite length_app. lia.
Qed.
End SliceFacts.

Section SliceOps.
Context {G : GrowthPolicy}.
Implicit Types (h : Heap) (s : slice) (xs : list Field).

Lemma wf_length_elems h s : wf h s -> length (elems h s) = s_len s.
Proof.
  intros [Hle Harr]. unfold elems. rewrite length_take.
  destruct (decide (s_cap s = 0)) as [Hz|Hnz]; [lia|].
  destruct (Harr Hnz) as [_ Hlen]. lia.
Qed.

(** The slice [append] returns holds the old elements followed by the new. *)
Lemma append_elems h s xs :
  wf h s ->
  elems (append s xs h).2 (append s xs h).1 = elems h s ++ xs.
Proof.
  intros Hwf. pose proof (wf_length_elems _ _ Hwf) as Hlen.
  destruct Hwf as [Hle Harr]. unfold append.
  destruct (Nat.leb_spec (s_len s + length xs) (s_cap s)) as [Hfit|Hgrow]; simpl.
  - unfold elems at 1. simpl. rewrite array_at_alter_inserts.
    destruct xs as [|x xs].
    + simpl. rewrite Nat.add_0_r, app_nil_r. done.
    + rewrite take_inserts_written; [done|].
      simpl in *. destruct Harr as [_ Harr]; lia.
  - unfold elems at 1. simpl. rewrite array_at_app_new.
    rewrite app_assoc. apply take_app_length'. rewrite length_app. lia.
Qed.

(** [append] leaves alone every slice of another array, and every slice of
    the same array that is not longer than the one appended to. *)
Lemma append_keeps h s xs s0 :
  s_len s0 = 0 \/ s_arr s0 < length h ->
  s_arr s0 <> s_arr s \/ s_len s0 <= s_len s ->
  elems (append s xs h).2 s0 = elems h s0.
Proof.
  intros Hvalid Hsep. unfold elems.
  destruct Hvalid as [Hz|Hin]; [by rewrite Hz|].
  unfold append.
  destruct (Nat.leb_spec (s_len s + length xs) (s_cap s)) as [Hfit|Hgrow]; simpl.
  - destruct (decide (s_arr s = s_arr s0)) as [Heq|Hne].
    + rewrite <- Heq, array_at_alter_inserts.
      apply take_inserts_below. destruct Hsep; [congruence|done].
    + by rewrite array_at_alter_ne.
  - by rewrite array_at_app_l.
Qed.

Lemma wf_valid h s : wf h s -> s_len s = 0 \/ s_arr s < length h.
Proof.
  intros [Hle Harr]. destruct (decide (s_cap s = 0)) as [Hz|Hnz]; [lia|].
  right. by destruct (Harr Hnz).
Qed.

(** In particular the slice appended to still holds what it held. *)
Lemma append_keeps_self h s xs :
  wf h s -> elems (append s xs h).2 s = elems h s.
Proof. intros Hwf. apply append_keeps; [by apply wf_valid|right; lia]. Qed.

Lemma append_length_heap h s xs : length h <= length (append s xs h).2.
Proof.
  unfold append. destruct (_ <=? _); simpl.
  - by rewrite length_alter.
  - rewrite length_app. simpl. lia.
Qed.

Lemma append_length_array h s xs a :
  a < length h -> length (array_at (append s xs h).2 a) = length (array_at h a).
Proof.
  intros Ha. unfold append. destruct (_ <=? _); simpl.
  - destruct (decide (s_arr s = a)) as [<-|Hne].
    + by rewrite array_at_alter_inserts, length_inserts.
    + by rewrite array_at_alter_ne.
  - by rewrite array_at_app_l.
Qed.

(** Well-formed slices stay well formed across an [append]. *)
Lemma append_wf_other h s xs s0 : wf h s0 -> wf (append s xs h).2 s0.
Proof.
  intros [Hle Harr]. split; [done|]. intros Hnz.
  destruct (Harr Hnz) as [Hin Hlen]. split.
  - pose proof (append_length_heap h s xs). lia.
  - by rewrite append_length_array.
Qed.

Lemma append_wf h s xs : wf h s -> wf (append s xs h).2 (append s xs h).1.
Proof.
  intros Hwf. pose proof (wf_length_elems _ _ Hwf) as Hlen.
  pose proof (append_wf_other h s xs s Hwf) as Hkeep. revert Hkeep.
  unfold append.
  destruct (Nat.leb_spec (s_len s + length xs) (s_cap s)) as [Hfit|Hgrow]; simpl.
  - intros [_ Harr]. split; [done|]. done.
  - intros _. split; simpl; [lia|]. intros _. split.
    + rewrite length_app. simpl. lia.
    + rewrite array_at_app_new, !length_app, length_replicate. lia.
Qed.

Lemma make_elems c h : elems (make c h).2 (make c h).1 = [].
Proof. done. Qed.

Lemma make_wf c h : wf (make c h).2 (make c h).1.
Proof.
  split; simpl; [lia|]. intros _. split.
  - rewrite length_app. simpl. lia.
  - by rewrite array_at_app_new, length_replicate.
Qed.

Lemma make_keeps c h s0 : wf h s0 -> elems (make c h).2 s0 = elems h s0.
Proof.
  intros Hwf. unfold elems. destruct (wf_valid _ _ Hwf) as [Hz|Hin].
  - by rewrite Hz.
  - simpl. by rewrite array_at_app_l.
Qed.

Lemma make_wf_other c h s0 : wf h s0 -> wf (make c h).2 s0.
Proof.
  intros [Hle Harr]. split; [done|]. intros Hnz.
  destruct (Harr Hnz) as [Hin Hlen]. simpl. split.
  - rewrite length_app. lia.
  - by rewrite array_at_app_l.
Qed.
End SliceOps.

(** ** The logger: what [Log] does *)

Section LoggerFacts.
Context {F : Type} {FF : Facility F}.
Implicit Types (l : Logger F) (ent : Entry F) (w : World) (fs : list Field).

Lemma LevelEnabler_Enabled_eq (le : LevelEnabler) lvl w :
  LevelEnabler_Enabled le lvl w = (Ret (Level_Enabled (LevelEnabler_level le w) lvl), w).
Proof. by destruct le. Qed.

Lemma error_reports_app ws cause t errs1 errs2 :
  error_reports ws cause t (errs1 ++ errs2) =
  error_reports ws cause t errs1
    ++ error_reports ws cause (t + Z.of_nat (length errs1))%Z errs2.
Proof.
  revert t. induction errs1 as [|e errs1 IH]; intros t.
  - simpl. by rewrite Z.add_0_r.
  - cbn [error_reports app length]. rewrite IH, Nat2Z.inj_succ.
    replace (t + 1 + Z.of_nat (length errs1))%Z
      with (t + Z.succ (Z.of_nat (length errs1)))%Z by lia.
    done.
Qed.

(** The loop runs every hook, threads the entry through them and reports
    each error once. *)
Lemma run_hooks_eq l hooks ent w :
  Logger.run_hooks l hooks ent w =
  (Ret (hooks_final hooks ent),
   mkWorld (w_backend w) (w_levels w)
     (w_trace w ++ error_reports (ErrorOutput l) "hook" (w_clock w) (hooks_errors hooks ent))
     (w_clock w + Z.of_nat (length (hooks_errors hooks ent)))%Z).
Proof.
  revert ent w. induction hooks as [|hook rest IH]; intros ent w.
  - simpl. unfold mret, M_ret. destruct w; simpl.
    by rewrite app_nil_r, Z.add_0_r.
  - cbn [Logger.run_hooks hooks_final hooks_errors foldl].
    destruct (hook ent) as [ent' [e|]] eqn:Hh; simpl.
    + unfold mbind, M_bind. simpl. rewrite IH. simpl.
      f_equal. f_equal.
      * by rewrite <- !app_assoc.
      * lia.
    + unfold mbind, M_bind. simpl. rewrite IH. done.
Qed.

(** [Log] in one equation. *)
Lemma Log_eq l ent fs w :
  Logger.Log l ent fs w =
  if gates_pass l ent w then
    let ent' := hooks_final (Hooks l) (bound (log_Facility l) ent) in
    let errs := hooks_errors (Hooks l) (bound (log_Facility l) ent) in
    (Ret (),
     mkWorld (fac_Log (log_Facility l) ent' fs (w_backend w)).2 (w_levels w)
       (w_trace w ++ error_reports (ErrorOutput l) "hook" (w_clock w) errs
          ++ [EvFacilityLog (ent_Time ent') (ent_Level ent') (ent_Message ent') fs]
          ++ (EvIO <$> (fac_Log (log_Facility l) ent' fs (w_backend w)).1))
       (w_clock w + Z.of_nat (length errs))%Z)
  else (Ret (), w).
Proof.
  unfold Logger.Log, gates_pass, mbind, M_bind.
  rewrite LevelEnabler_Enabled_eq.
  destruct (Level_Enabled _ _); simpl; [|done].
  destruct (fac_Enabled _ _); simpl; [|done].
  fold (bound (log_Facility l) ent). rewrite run_hooks_eq.
  unfold Logger.call_Facility_Log, Logger.run_fac_Log, emit, mbind, M_bind. simpl.
  destruct (fac_Log _ _ _ _) as [calls b]. simpl.
  by rewrite <- !app_assoc.
Qed.

(** [log] reads the clock once and then is [Log]. *)
Lemma log_eq l lvl msg fs w :
  Logger.log l lvl msg fs w =
  Logger.Log l (mkEntry (w_clock w) lvl msg None) fs (tick w).
Proof. done. Qed.

Lemma gates_pass_tick l ent w : gates_pass l ent (tick w) = gates_pass l ent w.
Proof. unfold gates_pass. by destruct (log_LevelEnabler l). Qed.

(** A run of [Log] returns normally and only extends the trace. *)
Lemma Log_returns l ent fs w : (Logger.Log l ent fs w).1 = Ret ().
Proof. rewrite Log_eq. by destruct (gates_pass _ _ _). Qed.

Lemma Log_trace l ent fs w :
  w_trace (Logger.Log l ent fs w).2 = w_trace w ++ new_events w (Logger.Log l ent fs w).2.
Proof.
  unfold new_events. rewrite Log_eq. destruct (gates_pass _ _ _); simpl.
  - by rewrite drop_app_length.
  - by rewrite drop_all, app_nil_r.
Qed.

Lemma new_events_app w w' evs :
  w_trace w' = w_trace w ++ evs -> new_events w w' = evs.
Proof. intros Heq. unfold new_events. by rewrite Heq, drop_app_length. Qed.
End LoggerFacts.

(** ** Gating *)

Section Gating.
Context {F : Type} {FF : Facility F}.
Implicit Types (l : Logger F) (ent : Entry F) (w : World) (fs : list Field).

Lemma delivered_app evs1 evs2 : delivered (evs1 ++ evs2) = delivered evs1 || delivered evs2.
Proof. apply existsb_app. Qed.

Lemma delivered_error_reports ws cause t errs :
  delivered (error_reports ws cause t errs) = false.
Proof. revert t. induction errs as [|e errs IH]; intros t; simpl; auto. Qed.

(** [Log] invokes the facility exactly when both gates pass. *)
Lemma Log_delivered l ent fs w :
  delivered (new_events w (Logger.Log l ent fs w).2) = gates_pass l ent w.
Proof.
  rewrite Log_eq. destruct (gates_pass l ent w); simpl.
  - erewrite new_events_app; [|reflexivity].
    rewrite !delivered_app, delivered_error_reports. simpl. done.
  - unfold new_events. by rewrite drop_all.
Qed.

Lemma new_events_tick w w' : new_events (tick w) w' = new_events w w'.
Proof. done. Qed.

Lemma log_delivered l lvl msg fs w :
  delivered (new_events w (Logger.log l lvl msg fs w).2)
  = gates_pass l (mkEntry (w_clock w) lvl msg None) w.
Proof.
  rewrite log_eq, <- new_events_tick, Log_delivered. apply gates_pass_tick.
Qed.

Lemma log_returns l lvl msg fs w : (Logger.log l lvl msg fs w).1 = Ret ().
Proof. rewrite log_eq. apply Log_returns. Qed.

Lemma log_trace l lvl msg fs w :
  w_trace (Logger.log l lvl msg fs w).2
  = w_trace w ++ new_events w (Logger.log l lvl msg fs w).2.
Proof. rewrite log_eq. exact (Log_trace l _ fs (tick w)). Qed.

(** A method that logs and then runs [k] on the world [log] left. *)
Lemma log_then (k : M unit) l lvl msg fs w :
  (Logger.log l lvl msg fs ;; k) w = k (Logger.log l lvl msg fs w).2.
Proof.
  unfold mbind, M_bind. pose proof (log_returns l lvl msg fs w) as Hr.
  destruct (Logger.log l lvl msg fs w) as [[[]| |] w']; simpl in *; done.
Qed.

Lemma call_delivered l s msg fs w :
  delivered (new_events w (call l s msg fs w).2)
  = gates_pass l (mkEntry (w_clock w) s msg None) w.
Proof.
  rewrite <- log_delivered with (fs := fs).
  destruct s; try done;
    unfold call, Logger.DPanic, Logger.Panic, Logger.Fatal; rewrite log_then.
  - destruct (Development l); [|done].
    unfold panic, new_events. simpl. rewrite log_trace, <- app_assoc, !drop_app_length.
    rewrite delivered_app. simpl. by rewrite orb_false_r.
  - unfold panic, new_events. simpl. rewrite log_trace, <- app_assoc, !drop_app_length.
    rewrite delivered_app. simpl. by rewrite orb_false_r.
  - unfold _exit, new_events. simpl. rewrite log_trace, <- app_assoc, !drop_app_length.
    rewrite delivered_app. simpl. by rewrite orb_false_r.
Qed.

(** C1, amended.  On a logger whose threshold is the fixed level [t], the
    logging call for severity [s] invokes the facility's [Log] if and only
    if [s >= t] and the facility reports the record eligible.  This holds
    for every severity: DPanic, Panic and Fatal pass through the same two
    gates as the others. *)
Theorem C1_delivery_iff_gates l (t s : Level) msg fs w :
  delivered (new_events w (call (Level_apply t l) s msg fs w).2) = true
  <-> Level_Enabled t s = true
      /\ fac_Enabled (log_Facility l) (mkEntry (w_clock w) s msg None) = true.
Proof.
  rewrite call_delivered. unfold gates_pass. simpl.
  by rewrite andb_true_iff.
Qed.
End Gating.

(** C1 as stated fails: with the threshold at Fatal, [Panic] is supposed to
    proceed to delivery whatever the gates say, yet it delivers nothing. *)
Lemma C1_panic_not_delivered :
  let l := New spy0 [Level_apply FatalLevel] in
  spec_proceeds (FF:=spyFac) l (mkEntry (w_clock w0) PanicLevel "boom" None) w0 = true
  /\ delivered (new_events w0 (call (FF:=spyFac) l PanicLevel "boom" [] w0).2) = false.
Proof. split; reflexivity. Qed.

(** ** Hooks *)

Section HookFacts.
Context {F : Type} {FF : Facility F}.
Implicit Types (l : Logger F) (ent : Entry F) (w : World) (fs : list Field).
Implicit Types (hooks : list (Hook F)).

Lemma hooks_final_app hooks1 hooks2 ent :
  hooks_final (hooks1 ++ hooks2) ent = hooks_final hooks2 (hooks_final hooks1 ent).
Proof. apply foldl_app. Qed.

(** A failing hook does not stop the hooks behind it: they run on the entry
    the earlier hooks left, and their errors are collected as well. *)
Lemma hooks_errors_app hooks1 hooks2 ent :
  hooks_errors (hooks1 ++ hooks2) ent =
  hooks_errors hooks1 ent ++ hooks_errors hooks2 (hooks_final hooks1 ent).
Proof.
  revert ent. induction hooks1 as [|h hooks1 IH]; intros ent; [done|].
  simpl. destruct (h ent).2; rewrite IH; done.
Qed.

Lemma hook_reports_error_reports ws t errs :
  length (List.filter (is_hook_report ws) (error_reports ws "hook" t errs))
  = length errs.
Proof.
  revert t. induction errs as [|e errs IH]; intros t; [done|].
  simpl. rewrite !bool_decide_eq_true_2 by done. simpl. by rewrite IH.
Qed.

Lemma hook_reports_IO ws (calls : list IOCall) :
  List.filter (is_hook_report ws) (EvIO <$> calls) = [].
Proof. induction calls; simpl; auto. Qed.

Lemma error_reports_elem ws cause t errs1 e errs2 :
  EvFprintf ws (t + Z.of_nat (length errs1))%Z cause e
    ∈ error_reports ws cause t (errs1 ++ e :: errs2).
Proof.
  rewrite error_reports_app. apply elem_of_app. right. simpl. apply list_elem_of_here.
Qed.

(** C4.  When a record passes the gates, [Log] writes exactly one internal
    error report with cause "hook" to the error output for every hook that
    fails: their number is the number of failing hooks, every hook of the
    list is run on the entry its predecessors left and its error, if any, is
    among the reports, and the facility's [Log] is still invoked. *)
Theorem C4_hook_errors_reported l ent fs w :
  gates_pass l ent w = true ->
  let ent0 := bound (log_Facility l) ent in
  let evs := new_events w (Logger.Log l ent fs w).2 in
  length (List.filter (is_hook_report (ErrorOutput l)) evs)
    = length (hooks_errors (Hooks l) ent0)
  /\ (forall hooks1 h hooks2 e,
        Hooks l = hooks1 ++ h :: hooks2 ->
        (h (hooks_final hooks1 ent0)).2 = Some e ->
        exists t, EvFprintf (ErrorOutput l) t "hook" e ∈ evs)
  /\ delivered evs = true.
Proof.
  intros Hg ent0 evs. subst evs. rewrite Log_delivered, Hg.
  rewrite Log_eq, Hg. cbn zeta.
  erewrite new_events_app; [|reflexivity]. fold ent0.
  split; [|split; [|done]].
  - rewrite !List.filter_app, !length_app, hook_reports_error_reports.
    rewrite hook_reports_IO. simpl. lia.
  - intros hooks1 h hooks2 e Hsplit Herr.
    rewrite Hsplit, hooks_errors_app. simpl. rewrite Herr.
    eexists. apply elem_of_app. left. apply error_reports_elem.
Qed.

(** C5.  When a record passes the gates, the entry handed to the
    facility's [Log] is the one obtained by applying all hooks in list order,
    each to the entry its predecessor left: time, level and message of the
    delivery are those the hooks wrote, and the facility runs on that entry. *)
Theorem C5_hooks_shape_delivery l ent fs w :
  gates_pass l ent w = true ->
  let ent' := hooks_final (Hooks l) (bound (log_Facility l) ent) in
  let w' := (Logger.Log l ent fs w).2 in
  (exists pre,
      new_events w w' =
        pre ++ [EvFacilityLog (ent_Time ent') (ent_Level ent') (ent_Message ent') fs]
            ++ (EvIO <$> (fac_Log (log_Facility l) ent' fs (w_backend w)).1)
      /\ delivered pre = false)
  /\ w_backend w' = (fac_Log (log_Facility l) ent' fs (w_backend w)).2.
Proof.
  intros Hg ent' w'. subst w'. rewrite Log_eq, Hg. cbn zeta. split; [|done].
  eexists. split.
  - erewrite new_events_app; [|reflexivity]. reflexivity.
  - apply delivered_error_reports.
Qed.
End HookFacts.

Lemma C4_witness :
  let l := mkLogger (FixedLevel InfoLevel) spy0 false
             [failing_hook; shouting_hook; failing_hook] Stderr in
  let ent := mkEntry 0%Z InfoLevel "z" None in
  let evs := new_events w0 (Logger.Log (FF:=spyFac) l ent [] w0).2 in
  gates_pass (FF:=spyFac) l ent w0 = true
  /\ length (List.filter (is_hook_report Stderr) evs) = 2
  /\ delivered evs = true.
Proof.
  intros l ent evs.
  assert (Hg : gates_pass (FF:=spyFac) l ent w0 = true) by reflexivity.
  destruct (C4_hook_errors_reported (FF:=spyFac) l ent [] w0 Hg) as (Hn & _ & Hd).
  split; [exact Hg | split; [exact Hn | exact Hd]].
Defined.

Lemma C5_witness :
  let l := mkLogger (FixedLevel InfoLevel) spy0 false
             [shouting_hook; shouting_hook] Stderr in
  let ent := mkEntry 0%Z WarnLevel "z" None in
  gates_pass (FF:=spyFac) l ent w0 = true
  /\ exists pre,
       new_events w0 (Logger.Log (FF:=spyFac) l ent [fld "k"] w0).2
         = pre ++ [EvFacilityLog 0%Z WarnLevel "z!!" [fld "k"]] ++ [].
Proof.
  intros l ent.
  assert (Hg : gates_pass (FF:=spyFac) l ent w0 = true) by reflexivity.
  destruct (C5_hooks_shape_delivery (FF:=spyFac) l ent [fld "k"] w0 Hg)
    as [[pre [Hpre _]] _].
  split; [exact Hg | exists pre; exact Hpre].
Defined.

(** ** Escalation and [Check] *)

Section Escalation.
Context {F : Type} {FF : Facility F}.
Implicit Types (l : Logger F) (ent : Entry F) (w : World) (fs : list Field).

(** C8.  [DPanic] panics with the message exactly when the logger is in
    development mode.  The panic comes after the log call: the trace is the
    one the log call left, followed by the panic, and the backend is as the
    log call left it.  Outside development mode [DPanic] is the gated log
    call at DPanic level and nothing else. *)
Theorem C8_DPanic_escalation l msg fs w :
  let r := Logger.DPanic l msg fs w in
  let logged := (Logger.log l DPanicLevel msg fs w).2 in
  (r.1 = Panicked msg <-> Development l = true)
  /\ (if Development l then
        r.1 = Panicked msg
        /\ new_events w r.2 = new_events w logged ++ [EvPanic msg]
        /\ w_backend r.2 = w_backend logged
      else r = (Ret (), logged)).
Proof.
  intros r logged. subst r logged. unfold Logger.DPanic. rewrite log_then.
  pose proof (log_returns l DPanicLevel msg fs w) as Hret.
  pose proof (log_trace l DPanicLevel msg fs w) as Htr.
  destruct (Development l); simpl.
  - split; [done|]. split; [done|]. split; [|done].
    unfold new_events at 1. simpl. rewrite Htr at 1.
    by rewrite <- app_assoc, drop_app_length.
  - split; [split; discriminate|].
    unfold mret, M_ret. by destruct (Logger.log l DPanicLevel msg fs w) as [[]].
Qed.

Lemma Check_eq l lvl msg w :
  let ent := mkEntry (w_clock w) lvl msg None in
  Logger.Check l lvl msg w =
  (Ret (if spec_proceeds l ent w then Some (bound (log_Facility l) ent) else None),
   tick w).
Proof.
  intros ent.
  assert (Hlvl : LevelEnabler_level (log_LevelEnabler l) (tick w)
                 = LevelEnabler_level (log_LevelEnabler l) w)
    by (by destruct (log_LevelEnabler l)).
  unfold Logger.Check, Logger.Check_default, spec_proceeds, gates_pass.
  unfold mbind, M_bind, Now. fold ent.
  destruct lvl; cbn [ent_Level ent];
    try (destruct (Development l); cbn [orb]);
    try reflexivity;
    rewrite LevelEnabler_Enabled_eq, Hlvl;
    destruct (Level_Enabled _ _); cbn [negb andb]; try reflexivity;
    destruct (fac_Enabled _ _); reflexivity.
Qed.

Lemma Draft_Check_eq l lvl msg w :
  Draft.Check l lvl msg w =
  if spec_proceeds l (mkEntry 0%Z lvl msg None) w then
    (Ret (Some (Draft.NewCheckedMessage (log_Facility l)
                  (mkEntry (w_clock w) lvl msg None))),
     tick w)
  else (Ret None, w).
Proof.
  unfold Draft.Check, spec_proceeds, gates_pass, mbind, M_bind, Now.
  destruct lvl; cbn [ent_Level];
    try (destruct (Development l); cbn [orb]);
    try reflexivity;
    rewrite LevelEnabler_Enabled_eq;
    destruct (Level_Enabled _ _); cbn [negb andb orb]; try reflexivity;
    unfold mret, M_ret; destruct (fac_Enabled _ _); reflexivity.
Qed.

(** C6, amended.  [Check] returns an entry bound to the logger's facility
    exactly when the level is Panic or Fatal, or it is DPanic and the logger
    is in development mode, or the level enabler and the facility both let
    the entry through; otherwise it returns nil.  It reads the clock once
    and changes nothing else.  The [Check] of the other draft decides in the
    same way and returns the facility with the entry. *)
Theorem C6_Check_result l lvl msg w :
  let ent := mkEntry (w_clock w) lvl msg None in
  Logger.Check l lvl msg w =
    (Ret (if spec_proceeds l ent w then Some (bound (log_Facility l) ent) else None),
     tick w)
  /\ Draft.Check l lvl msg w =
     (if spec_proceeds l (mkEntry 0%Z lvl msg None) w then
        (Ret (Some (Draft.NewCheckedMessage (log_Facility l) ent)), tick w)
      else (Ret None, w)).
Proof. intros ent. split; [apply Check_eq | apply Draft_Check_eq]. Qed.
End Escalation.

(** C6 as stated fails: with the threshold at Fatal, [Check] at Panic level
    returns an entry, yet the logging call at that level delivers nothing. *)
Lemma C6_Check_passes_without_delivery :
  let l := New spy0 [Level_apply FatalLevel] in
  (Logger.Check (FF:=spyFac) l PanicLevel "boom" w0).1
    = Ret (Some (mkEntry 0%Z PanicLevel "boom" (Some spy0)))
  /\ delivered (new_events w0 (call (FF:=spyFac) l PanicLevel "boom" [] w0).2) = false.
Proof. split; reflexivity. Qed.

(** ** The spy facility *)

Section SpyFacts.
Context {G : GrowthPolicy}.
Implicit Types (sf : spy.spyFacility) (ent : Entry spy.spyFacility).
Implicit Types (b : Backend) (fs : list Field) (w : World).

Lemma Sink_logs_WriteLog s lvl msg fields b :
  spy.Sink_logs (spy.WriteLog s lvl msg fields b) s
  = spy.Sink_logs b s ++ [mkLog lvl msg fields].
Proof. unfold spy.WriteLog, spy.Sink_logs. simpl. by rewrite lookup_insert_eq. Qed.

Lemma Sink_logs_WriteLog_ne s s' lvl msg fields b :
  s <> s' -> spy.Sink_logs (spy.WriteLog s lvl msg fields b) s' = spy.Sink_logs b s'.
Proof.
  intros Hne. unfold spy.WriteLog, spy.Sink_logs. simpl.
  by rewrite lookup_insert_ne.
Qed.

Lemma spy_Log_eq sf ent fs b :
  spy.Log sf ent fs b =
  ([], spy.WriteLog (spy.sf_sink sf) (ent_Level ent) (ent_Message ent)
         (Log_all sf fs b).1 (mkBackend (Log_all sf fs b).2 (b_sinks b))).
Proof.
  unfold spy.Log, Log_all.
  destruct (make _ _) as [all0 h1]. destruct (append all0 _ h1) as [all1 h2].
  by destruct (append all1 fs h2) as [all2 h3].
Qed.

Lemma append_len h s xs : s_len (append s xs h).1 = s_len s + length xs.
Proof. unfold append. by destruct (_ <=? _). Qed.

(** [all] holds the context followed by the fields of the call, and the
    context itself is left as it was. *)
Lemma Log_all_elems sf fs b :
  wf (b_heap b) (spy.sf_context sf) ->
  elems (Log_all sf fs b).2 (Log_all sf fs b).1
    = elems (b_heap b) (spy.sf_context sf) ++ fs
  /\ elems (Log_all sf fs b).2 (spy.sf_context sf) = elems (b_heap b) (spy.sf_context sf)
  /\ wf (Log_all sf fs b).2 (spy.sf_context sf).
Proof.
  intros Hwf. unfold Log_all.
  set (c := length fs + s_len (spy.sf_context sf)).
  set (sc := spy.sf_context sf) in *.
  pose proof (make_wf c (b_heap b)) as Hw0.
  pose proof (make_keeps c (b_heap b) _ Hwf) as Hk0.
  pose proof (make_wf_other c (b_heap b) _ Hwf) as Hwk0.
  unfold make in *. simpl in *.
  set (h1 := b_heap b ++ [replicate c zeroField]) in *.
  set (all0 := Slice (length (b_heap b)) 0 c) in *.
  rewrite Hk0. set (ctx := elems (b_heap b) sc) in *.
  pose proof (append_elems h1 all0 ctx Hw0) as He1.
  pose proof (append_wf h1 all0 ctx Hw0) as Hw1.
  pose proof (append_wf_other h1 all0 ctx _ Hwk0) as Hwk1.
  pose proof (append_len h1 all0 ctx) as Hl1.
  assert (Hk1 : elems (append all0 ctx h1).2 sc = ctx).
  { rewrite append_keeps; [done|by apply wf_valid|].
    destruct (wf_valid _ _ Hwf) as [Hz|Hin]; [right|left]; simpl; lia. }
  destruct (append all0 ctx h1) as [all1 h2]. simpl in *.
  pose proof (append_elems h2 all1 fs Hw1) as He2.
  pose proof (append_wf_other h2 all1 fs _ Hwk1) as Hwk2.
  assert (Hk2 : elems (append all1 fs h2).2 sc = ctx).
  { rewrite append_keeps; [done|by apply wf_valid|].
    right. rewrite Hl1. subst ctx. rewrite wf_length_elems by done. lia. }
  destruct (append all1 fs h2) as [all2 h3]. simpl in *.
  rewrite He2, He1. done.
Qed.

(** What [Log] leaves in the sink of the facility. *)
Lemma spy_Log_logs sf ent fs b :
  wf (b_heap b) (spy.sf_context sf) ->
  let b' := (spy.Log sf ent fs b).2 in
  exists lg,
    spy.Logs (spy.sf_sink sf) b' = spy.Logs (spy.sf_sink sf) b ++ [lg]
    /\ Log_view b' lg
       = (ent_Level ent, ent_Message ent, elems (b_heap b) (spy.sf_context sf) ++ fs).
Proof.
  intros Hwf b'. subst b'. rewrite spy_Log_eq. simpl.
  destruct (Log_all_elems sf fs b Hwf) as (Hall & _ & _).
  eexists. split.
  - unfold spy.Logs. rewrite Sink_logs_WriteLog. reflexivity.
  - unfold Log_view. simpl. by rewrite Hall.
Qed.

(** C10.  The spy facility's [Log] adds one record to its sink; the fields
    of that record are the facility's context followed by the fields of the
    call, in their order, and level and message are the entry's. *)
Theorem C10_spy_Log_fields sf ent fs b :
  wf (b_heap b) (spy.sf_context sf) ->
  let b' := (spy.Log sf ent fs b).2 in
  exists lg,
    spy.Logs (spy.sf_sink sf) b' = spy.Logs (spy.sf_sink sf) b ++ [lg]
    /\ Log_view b' lg
       = (ent_Level ent, ent_Message ent, elems (b_heap b) (spy.sf_context sf) ++ fs).
Proof. apply spy_Log_logs. Qed.

Lemma new_logs_one s b b' lg :
  spy.Logs s b' = spy.Logs s b ++ [lg] -> new_logs s b b' = [Log_view b' lg].
Proof. intros Heq. unfold new_logs. by rewrite Heq, drop_app_length. Qed.

Lemma new_logs_none s b : new_logs s b b = [].
Proof. unfold new_logs. by rewrite drop_all. Qed.

(** What a call of [Log] on a logger over the spy facility adds to the sink. *)
Lemma spy_Logger_Log_new_logs (l : Logger spy.spyFacility) ent fs w :
  let sf := log_Facility l in
  wf (b_heap (w_backend w)) (spy.sf_context sf) ->
  new_logs (spy.sf_sink sf) (w_backend w) (w_backend (Logger.Log l ent fs w).2)
  = if gates_pass l ent w then
      let ent' := hooks_final (Hooks l) (bound sf ent) in
      [(ent_Level ent', ent_Message ent',
        elems (b_heap (w_backend w)) (spy.sf_context sf) ++ fs)]
    else [].
Proof.
  intros sf Hwf. subst sf. rewrite Log_eq. destruct (gates_pass l ent w); cbn zeta.
  - cbn [snd w_backend fac_Log spy.spyFacility_Facility].
    destruct (spy_Log_logs (log_Facility l)
                (hooks_final (Hooks l) (bound (log_Facility l) ent)) fs (w_backend w) Hwf)
      as (lg & Hlogs & Hview).
    cbn zeta in Hlogs, Hview.
    rewrite (new_logs_one _ _ _ _ Hlogs). by rewrite Hview.
  - apply new_logs_none.
Qed.
End SpyFacts.

Lemma C10_witness :
  let sf := spy.mkSpy 0 (Slice 0 2 4) in
  let b := mkBackend [[fld "a"; fld "b"; zeroField; zeroField]] ∅ in
  let ent := mkEntry 0%Z InfoLevel "hello" (Some sf) in
  wf (b_heap b) (spy.sf_context sf)
  /\ exists lg,
       spy.Logs 0 (spy.Log (G:=doubling) sf ent [fld "x"] b).2 = [] ++ [lg]
       /\ Log_view (spy.Log (G:=doubling) sf ent [fld "x"] b).2 lg
          = (InfoLevel, "hello", [fld "a"; fld "b"; fld "x"]).
Proof.
  intros sf b ent.
  assert (Hwf : wf (b_heap b) (spy.sf_context sf)).
  { split; simpl; [lia|]. intros _. split; [lia|reflexivity]. }
  split; [exact Hwf|].
  exact (C10_spy_Log_fields (G:=doubling) sf ent [fld "x"] b Hwf).
Defined.

(** ** Derivation with [With] *)

Lemma With_eq {F} {FF : Facility F} (l : Logger F) fs w :
  let derived := fac_With (log_Facility l) fs (w_backend w) in
  Logger.With l fs w =
  (Ret (mkLogger (log_LevelEnabler l) derived.1 (Development l) (Hooks l)
                 (ErrorOutput l)),
   mkWorld derived.2 (w_levels w) (w_trace w) (w_clock w)).
Proof.
  unfold Logger.With, on_backend, mbind, M_bind. simpl.
  by destruct (fac_With _ _ _).
Qed.

Lemma spy_With_eq {G : GrowthPolicy} (sf : spy.spyFacility) fs b :
  spy.With sf fs b =
  (spy.mkSpy (spy.sf_sink sf) (append (spy.sf_context sf) fs (b_heap b)).1,
   mkBackend (append (spy.sf_context sf) fs (b_heap b)).2 (b_sinks b)).
Proof. unfold spy.With. by destruct (append _ _ _). Qed.

Lemma gates_pass_spy_backend {G : GrowthPolicy} (l : Logger spy.spyFacility) ent w b :
  gates_pass l ent (mkWorld b (w_levels w) (w_trace w) (w_clock w))
  = gates_pass l ent w.
Proof. unfold gates_pass. by destruct (log_LevelEnabler l). Qed.

(** Deriving from a logger over the spy facility: the child's context is the
    parent's followed by the new fields, and the parent delivers what it
    delivered before. *)
Lemma spy_With_frame {G : GrowthPolicy} (l : Logger spy.spyFacility) fs w :
  wf (b_heap (w_backend w)) (spy.sf_context (log_Facility l)) ->
  let sf := log_Facility l in
  let sf' := (spy.With sf fs (w_backend w)).1 in
  let w' := (Logger.With l fs w).2 in
  spy.sf_sink sf' = spy.sf_sink sf
  /\ elems (b_heap (w_backend w')) (spy.sf_context sf')
     = elems (b_heap (w_backend w)) (spy.sf_context sf) ++ fs
  /\ elems (b_heap (w_backend w')) (spy.sf_context sf)
     = elems (b_heap (w_backend w)) (spy.sf_context sf)
  /\ wf (b_heap (w_backend w')) (spy.sf_context sf')
  /\ wf (b_heap (w_backend w')) (spy.sf_context sf)
  /\ forall ent fs2,
       new_logs (spy.sf_sink sf) (w_backend w') (w_backend (Logger.Log l ent fs2 w').2)
       = new_logs (spy.sf_sink sf) (w_backend w) (w_backend (Logger.Log l ent fs2 w).2).
Proof.
  intros Hwf sf sf' w'. subst sf sf' w'.
  rewrite With_eq. cbn [snd fst w_backend fac_With spy.spyFacility_Facility].
  rewrite spy_With_eq. cbn [snd fst b_heap spy.sf_sink spy.sf_context].
  pose proof (append_elems _ _ fs Hwf) as Hchild.
  pose proof (append_keeps_self _ _ fs Hwf) as Hparent.
  pose proof (append_wf_other _ (spy.sf_context (log_Facility l)) fs _ Hwf) as Hwf'.
  pose proof (append_wf _ _ fs Hwf) as Hwfc.
  split; [done|]. split; [done|]. split; [done|]. split; [done|]. split; [done|].
  intros ent fs2.
  pose proof (spy_Logger_Log_new_logs l ent fs2
                (mkWorld (mkBackend (append (spy.sf_context (log_Facility l)) fs
                                            (b_heap (w_backend w))).2
                                    (b_sinks (w_backend w)))
                         (w_levels w) (w_trace w) (w_clock w)) Hwf') as Hafter.
  cbn zeta in Hafter. cbn [w_backend b_heap] in Hafter.
  rewrite gates_pass_spy_backend, Hparent in Hafter.
  rewrite (spy_Logger_Log_new_logs l ent fs2 w Hwf). exact Hafter.
Qed.

(** C3.  [With] returns a logger with the parent's level enabler, hooks,
    error output and development flag, whose facility is the one the
    parent's facility derives for the fields; nothing but the backend state
    changes.  For the spy facility the child's context is the parent's
    followed by the fields, and the parent's context and the records the
    parent delivers are the same after the derivation as before it, although
    the child may share the parent's backing array; both contexts are well
    formed again.  For the io facility the
    child's encoder holds the parent's fields followed by the new ones and
    the parent logs as before. *)
Theorem C3_With_derives_and_frames :
  (forall F (FF : Facility F) (l : Logger F) fs w,
      let derived := fac_With (log_Facility l) fs (w_backend w) in
      Logger.With l fs w =
      (Ret (mkLogger (log_LevelEnabler l) derived.1 (Development l) (Hooks l)
                     (ErrorOutput l)),
       mkWorld derived.2 (w_levels w) (w_trace w) (w_clock w)))
  /\ (forall (G : GrowthPolicy) (l : Logger spy.spyFacility) fs w,
      wf (b_heap (w_backend w)) (spy.sf_context (log_Facility l)) ->
      let sf := log_Facility l in
      let sf' := (spy.With sf fs (w_backend w)).1 in
      let w' := (Logger.With l fs w).2 in
      spy.sf_sink sf' = spy.sf_sink sf
      /\ elems (b_heap (w_backend w')) (spy.sf_context sf')
         = elems (b_heap (w_backend w)) (spy.sf_context sf) ++ fs
      /\ elems (b_heap (w_backend w')) (spy.sf_context sf)
         = elems (b_heap (w_backend w)) (spy.sf_context sf)
      /\ wf (b_heap (w_backend w')) (spy.sf_context sf')
      /\ wf (b_heap (w_backend w')) (spy.sf_context sf)
      /\ forall ent fs2,
           new_logs (spy.sf_sink sf) (w_backend w')
                    (w_backend (Logger.Log l ent fs2 w').2)
           = new_logs (spy.sf_sink sf) (w_backend w)
                      (w_backend (Logger.Log l ent fs2 w).2))
  /\ (forall (l : Logger io.ioFacility) fs w,
      let iof := log_Facility l in
      let iof' := (io.With iof fs (w_backend w)).1 in
      let w' := (Logger.With l fs w).2 in
      io.iof_Output iof' = io.iof_Output iof
      /\ enc_fields (io.iof_Encoder iof') = enc_fields (io.iof_Encoder iof) ++ fs
      /\ forall ent fs2,
           new_events w' (Logger.Log l ent fs2 w').2
           = new_events w (Logger.Log l ent fs2 w).2).
Proof.
  split; [|split].
  - intros F FF l fs w. apply With_eq.
  - intros G l fs w Hwf. by apply spy_With_frame.
  - intros l fs w iof iof' w'. subst iof iof' w'.
    rewrite With_eq. simpl. split; [done|]. split; [done|].
    intros ent fs2. by destruct w.
Qed.

Lemma C3_witness :
  let parent := mkLogger (FixedLevel InfoLevel) (spy.mkSpy 0 (Slice 0 2 4)) false []
                         Stderr in
  let w := mkWorld (mkBackend [[fld "a"; fld "b"; zeroField; zeroField]] ∅) ∅ [] 0%Z in
  let sf' := (spy.With (G:=doubling) (log_Facility parent) [fld "c"] (w_backend w)).1 in
  let w' := (Logger.With (FF:=spyFac) parent [fld "c"] w).2 in
  wf (b_heap (w_backend w)) (spy.sf_context (log_Facility parent))
  /\ sf' = spy.mkSpy 0 (Slice 0 3 4)
  /\ elems (b_heap (w_backend w')) (spy.sf_context sf') = [fld "a"; fld "b"] ++ [fld "c"]
  /\ elems (b_heap (w_backend w')) (Slice 0 2 4) = [fld "a"; fld "b"].
Proof.
  intros parent w sf' w'.
  assert (Hwf : wf (b_heap (w_backend w)) (spy.sf_context (log_Facility parent))).
  { split; simpl; [lia|]. intros _. split; [lia|reflexivity]. }
  destruct (proj1 (proj2 C3_With_derives_and_frames) doubling parent [fld "c"] w Hwf)
    as (_ & Hchild & Hparent & _).
  split; [exact Hwf|]. split; [reflexivity|]. split; [exact Hchild | exact Hparent].
Defined.

(** What the frame property does not say: two children derived from one
    parent whose array has room to spare share that array, and the second
    derivation overwrites the field of the first. *)
Example siblings_share_the_array :
  let parent := spy.mkSpy 0 (Slice 0 2 4) in
  let b := mkBackend [[fld "a"; fld "b"; zeroField; zeroField]] ∅ in
  let '(child1, b1) := spy.With (G:=doubling) parent [fld "c"] b in
  let '(child2, b2) := spy.With (G:=doubling) parent [fld "d"] b1 in
  elems (b_heap b1) (spy.sf_context child1) = [fld "a"; fld "b"; fld "c"]
  /\ elems (b_heap b2) (spy.sf_context child1) = [fld "a"; fld "b"; fld "d"]
  /\ elems (b_heap b2) (spy.sf_context parent) = [fld "a"; fld "b"].
Proof. repeat split. Qed.

(** ** The io facility: flushing and encoder errors *)

Lemma Level_gtb_Error lvl :
  Level_gtb lvl ErrorLevel = true <-> lvl ∈ [DPanicLevel; PanicLevel; FatalLevel].
Proof.
  split.
  - destruct lvl; try discriminate; intros _; set_solver.
  - intros Hin. rewrite !elem_of_cons in Hin.
    destruct Hin as [->|[->|[->|Hin]]]; try done. by apply elem_of_nil in Hin.
Qed.

(** The calls of [Log], whatever [WriteEntry] returns. *)
Lemma io_Log_eq (iof : io.ioFacility) (ent : Entry io.ioFacility) fs b :
  io.Log iof ent fs b =
  ([IO_WriteEntry (io.iof_Output iof) (enc_fields (io.iof_Encoder iof) ++ fs)
                  (ent_Message ent) (ent_Level ent) (ent_Time ent);
    IO_Free]
   ++ (if Level_gtb (ent_Level ent) ErrorLevel then [IO_Sync (io.iof_Output iof)]
       else []),
   b).
Proof.
  unfold io.Log, Encoder_WriteEntry. simpl.
  by destruct (enc_err _ _ _ _ _).
Qed.

Lemma exits_error_reports ws cause t errs :
  List.filter is_exit (error_reports ws cause t errs) = [].
Proof. revert t. induction errs as [|e errs IH]; intros t; simpl; auto. Qed.

Lemma exits_IO (calls : list IOCall) : List.filter is_exit (EvIO <$> calls) = [].
Proof. induction calls; simpl; auto. Qed.

(** A fixed or atomic threshold never lies above Fatal, and the io facility
    takes every entry: [Fatal] over the io facility always gets through. *)
Lemma Level_Enabled_Fatal t : Level_Enabled t FatalLevel = true.
Proof. by destruct t. Qed.

Lemma gates_pass_io_Fatal (l : Logger io.ioFacility) (ent : Entry io.ioFacility) w :
  ent_Level ent = FatalLevel -> gates_pass l ent w = true.
Proof.
  intros Hlvl. unfold gates_pass. rewrite Hlvl, Level_Enabled_Fatal. done.
Qed.

(** C2, amended.  In the io facility's [Log], a record that reaches it
    above Error level (DPanic, Panic or Fatal) makes exactly one [Sync]
    call, on the facility's output and as the last call, after [WriteEntry]
    and [Free]; a record at Error level or below makes none.  [Fatal] exits
    with status 1 once, after everything its log call did: its run is the
    reports of failing hooks, the delivery with [WriteEntry] and [Free],
    the flush exactly when the hooks left the level of the entry above
    Error, and then the exit. *)
Theorem C2_flush_then_exit (iof : io.ioFacility) (ent : Entry io.ioFacility) fs b
    (l : Logger io.ioFacility) msg w :
  let calls := (io.Log iof ent fs b).1 in
  let out := io.iof_Output iof in
  let written :=
    IO_WriteEntry out (enc_fields (io.iof_Encoder iof) ++ fs)
                  (ent_Message ent) (ent_Level ent) (ent_Time ent) in
  let r := Logger.Fatal l msg fs w in
  let logged := (Logger.log l FatalLevel msg fs w).2 in
  let ent0 := bound (log_Facility l) (mkEntry (w_clock w) FatalLevel msg None) in
  let ent' := hooks_final (Hooks l) ent0 in
  let out' := io.iof_Output (log_Facility l) in
  (Level_gtb (ent_Level ent) ErrorLevel = true
   <-> ent_Level ent ∈ [DPanicLevel; PanicLevel; FatalLevel])
  /\ calls = (if Level_gtb (ent_Level ent) ErrorLevel
              then [written; IO_Free; IO_Sync out]
              else [written; IO_Free])
  /\ length (List.filter is_sync calls)
     = (if Level_gtb (ent_Level ent) ErrorLevel then 1 else 0)
  /\ r.1 = Exited 1%Z
  /\ w_backend r.2 = w_backend logged
  /\ List.filter is_exit (new_events w logged) = []
  /\ new_events w r.2 =
     error_reports (ErrorOutput l) "hook" (w_clock w + 1)%Z
                   (hooks_errors (Hooks l) ent0)
     ++ [EvFacilityLog (ent_Time ent') (ent_Level ent') (ent_Message ent') fs;
         EvIO (IO_WriteEntry out' (enc_fields (io.iof_Encoder (log_Facility l)) ++ fs)
                             (ent_Message ent') (ent_Level ent') (ent_Time ent'));
         EvIO IO_Free]
     ++ (if Level_gtb (ent_Level ent') ErrorLevel then [EvIO (IO_Sync out')] else [])
     ++ [EvExit 1%Z].
Proof.
  intros calls out written r logged ent0 ent' out'.
  assert (Hlogged : new_events w logged =
     error_reports (ErrorOutput l) "hook" (w_clock w + 1)%Z
                   (hooks_errors (Hooks l) ent0)
     ++ [EvFacilityLog (ent_Time ent') (ent_Level ent') (ent_Message ent') fs]
     ++ (EvIO <$> (io.Log (log_Facility l) ent' fs (w_backend w)).1)).
  { subst logged. rewrite log_eq, Log_eq, gates_pass_io_Fatal by done. cbn zeta.
    erewrite new_events_app; [|reflexivity]. reflexivity. }
  split; [apply Level_gtb_Error|].
  subst calls. rewrite io_Log_eq. cbn [fst].
  split; [by destruct (Level_gtb _ _)|].
  split; [by destruct (Level_gtb _ _)|].
  subst r. unfold Logger.Fatal. rewrite log_then. fold logged.
  split; [done|]. split; [done|]. split.
  - rewrite Hlogged.
    by rewrite !List.filter_app, exits_error_reports, exits_IO.
  - unfold _exit, new_events at 1. cbn [snd w_trace].
    assert (Htr : w_trace logged = w_trace w ++ new_events w logged)
      by apply log_trace.
    rewrite Htr, <- app_assoc, drop_app_length, Hlogged, io_Log_eq. cbn [fst].
    rewrite <- !app_assoc. f_equal.
    by destruct (Level_gtb (ent_Level ent') ErrorLevel).
Qed.

(** C2 as stated fails: with a hook that lowers the level of the entry,
    [Fatal] delivers the record and exits, and the output is never flushed. *)
Lemma C2_Fatal_exits_without_flush :
  let l := mkLogger (FixedLevel InfoLevel) (io.newIOFacility working_encoder None)
                    false [quieting_hook] Stderr in
  let r := Logger.Fatal l "bye" [fld "k"] w0 in
  r.1 = Exited 1%Z
  /\ new_events w0 r.2 =
     [EvFacilityLog 0%Z InfoLevel "bye" [fld "k"];
      EvIO (IO_WriteEntry Stdout [fld "k"] "bye" InfoLevel 0%Z);
      EvIO IO_Free;
      EvExit 1%Z]
  /\ List.filter is_flush (new_events w0 r.2) = [].
Proof. repeat split. Qed.

(** A run of [Fatal] over a working encoder, without hooks. *)
Example Fatal_trace :
  let l := New (io.newIOFacility working_encoder None) [] in
  Logger.Fatal l "bye" [fld "k"] w0 =
  (Exited 1%Z,
   mkWorld b0 ∅
     [EvFacilityLog 0%Z FatalLevel "bye" [fld "k"];
      EvIO (IO_WriteEntry Stdout [fld "k"] "bye" FatalLevel 0%Z);
      EvIO IO_Free;
      EvIO (IO_Sync Stdout);
      EvExit 1%Z]
     1%Z).
Proof. reflexivity. Qed.

(** C7, on the code as it is.  With an encoder whose [WriteEntry] fails, a
    log call through the io facility returns normally, and the error is
    dropped: the run consists of the delivery, [WriteEntry] and [Free], and
    nothing is written to the error output. *)
Theorem C7_encoder_error_is_dropped :
  let l := New (io.newIOFacility failing_encoder None) [] in
  let r := Logger.Info l "z" [fld "k"] w0 in
  enc_err failing_encoder [fld "k"] "z" InfoLevel 0%Z = Some "write failed"
  /\ r.1 = Ret ()
  /\ new_events w0 r.2 =
     [EvFacilityLog 0%Z InfoLevel "z" [fld "k"];
      EvIO (IO_WriteEntry Stdout [fld "k"] "z" InfoLevel 0%Z);
      EvIO IO_Free].
Proof. repeat split. Qed.

(** ** Concurrent callers: every record arrives, whole and once *)

Section Interleaving.
Import interleaving.
Implicit Types (st : state) (th : thread) (ths : list thread).

Lemma lookup_split ths i th :
  ths !! i = Some th -> ths = take i ths ++ th :: drop (S i) ths.
Proof. intros Hi. by rewrite take_drop_middle. Qed.

Lemma insert_split ths i th th' :
  ths !! i = Some th -> <[i:=th']> ths = take i ths ++ th' :: drop (S i) ths.
Proof. intros Hi. apply insert_take_drop. by eapply lookup_lt_Some. Qed.

(** An interleaving of lists is a permutation of their concatenation. *)
Lemma Interleave_Permutation {A} (ls : list (list A)) (l : list A) :
  Interleave ls l -> l ≡ₚ concat ls.
Proof.
  induction 1 as [ls Hnil|ls i x rest l Hi _ IH].
  - induction Hnil as [|k ls -> _ IH]; [done|]. by simpl.
  - rewrite IH. rewrite (insert_take_drop ls i rest) by (by eapply lookup_lt_Some).
    rewrite <- (take_drop_middle ls i (x :: rest) Hi) at 3.
    rewrite !concat_app, !concat_cons. solve_Permutation.
Qed.

(** A step that leaves the thread's outstanding records alone leaves those
    of all threads alone. *)
Lemma remaining_insert_same ths i th th' :
  ths !! i = Some th -> remaining th' = remaining th ->
  remaining <$> <[i:=th']> ths = remaining <$> ths.
Proof.
  intros Hi Heq. rewrite list_fmap_insert, Heq.
  apply list_insert_id. by rewrite list_lookup_fmap, Hi.
Qed.

Lemma work_insert ths i th th' :
  ths !! i = Some th ->
  sum_list_with work_of (<[i:=th']> ths) + work_of th
  = sum_list_with work_of ths + work_of th'.
Proof.
  intros Hi. rewrite (insert_split _ _ _ th' Hi).
  rewrite (lookup_split _ _ _ Hi) at 3.
  rewrite !sum_list_with_app. simpl. lia.
Qed.

(** When the mutex is free nobody is inside; when it is held, a thread
    that is not idle is the one inside. *)
Lemma holder_unique st i th j th' :
  (forall k th0, k <> i -> threads st !! k = Some th0 -> idle th0) ->
  threads st !! j = Some th' -> ~ idle th' -> j = i.
Proof.
  intros Hothers Hj Hbusy. destruct (decide (j = i)) as [|Hne]; [done|].
  exfalso. apply Hbusy. by eapply Hothers.
Qed.

Lemma lookup_insert_cases ths i (th' : thread) j th0 :
  <[i:=th']> ths !! j = Some th0 ->
  (j = i /\ th0 = th') \/ (j <> i /\ ths !! j = Some th0).
Proof.
  intros Hj. destruct (decide (j = i)) as [->|Hne].
  - left. split; [done|].
    rewrite list_lookup_insert_eq in Hj; [congruence|].
    apply lookup_lt_Some in Hj. by rewrite length_insert in Hj.
  - right. split; [done|]. by rewrite list_lookup_insert_ne in Hj.
Qed.

(** Every step keeps the invariant. *)
Lemma step_Inv logs0 calls st i st' :
  Inv logs0 calls st -> step i st = Some st' -> Inv logs0 calls st'.
Proof.
  intros [(written & Hlogs & Hrest) Hmu] Hstep. unfold step in Hstep.
  destruct (threads st !! i) as [th|] eqn:Hi; [|done].
  assert (Hlt : i < length (threads st)) by by eapply lookup_lt_Some.
  destruct th as [p cs]. simpl in Hstep.
  destruct cs as [|c rest]; [by destruct p|].
  destruct p as [| |snap|].
  - (* Lock *)
    destruct (mu st) eqn:Hm; [done|]. inversion Hstep; subst st'; clear Hstep.
    split; simpl.
    + exists written. split; [done|].
      by rewrite (remaining_insert_same _ _ _ _ Hi).
    + exists i, (mkThread Locked (c :: rest)). split; [by apply list_lookup_insert_eq|].
      split; [done|]. intros j th' Hne Hj.
      rewrite list_lookup_insert_ne in Hj by done.
      by eapply (proj1 (Forall_lookup _ _) Hmu).
  - (* the read of s.logs *)
    inversion Hstep; subst st'; clear Hstep.
    destruct (mu st) eqn:Hm.
    + destruct Hmu as (k & thk & Hk & Hinside & Hothers).
      assert (i = k) as <- by (by eapply holder_unique).
      split; simpl.
      * exists written. split; [done|].
        by rewrite (remaining_insert_same _ _ _ _ Hi).
      * exists i, (mkThread (Appending (logs st)) (c :: rest)).
        split; [by apply list_lookup_insert_eq|]. split; [done|].
        intros j th' Hne Hj. rewrite list_lookup_insert_ne in Hj by done.
        by eapply Hothers.
    + exfalso. by pose proof (proj1 (Forall_lookup _ _) Hmu _ _ Hi).
  - (* the assignment to s.logs *)
    inversion Hstep; subst st'; clear Hstep.
    destruct (mu st) eqn:Hm.
    + destruct Hmu as (k & thk & Hk & Hinside & Hothers).
      assert (i = k) as <- by (by eapply holder_unique).
      rewrite Hi in Hk. inversion Hk; subst thk; clear Hk.
      destruct Hinside as [_ Hsnap]. simpl in Hsnap. subst snap.
      split; simpl.
      * exists (written ++ [c]). split; [by rewrite Hlogs, (assoc_L (++))|].
        intros l Hl. rewrite <- (assoc_L (++)). simpl. apply Hrest.
        apply (Interleave_cons _ i c rest).
        -- by rewrite list_lookup_fmap, Hi.
        -- by rewrite list_fmap_insert in Hl.
      * exists i, (mkThread Unlocking (c :: rest)).
        split; [by apply list_lookup_insert_eq|]. split; [done|].
        intros j th' Hne Hj. rewrite list_lookup_insert_ne in Hj by done.
        by eapply Hothers.
    + exfalso. by pose proof (proj1 (Forall_lookup _ _) Hmu _ _ Hi).
  - (* Unlock *)
    inversion Hstep; subst st'; clear Hstep.
    destruct (mu st) eqn:Hm.
    + destruct Hmu as (k & thk & Hk & Hinside & Hothers).
      assert (i = k) as <- by (by eapply holder_unique).
      split; simpl.
      * exists written. split; [done|].
        by rewrite (remaining_insert_same _ _ _ _ Hi).
      * apply Forall_lookup. intros j th0 Hj.
        destruct (lookup_insert_cases _ _ _ _ _ Hj) as [[-> ->]|[Hne Hj']]; [done|].
        by eapply Hothers.
    + exfalso. by pose proof (proj1 (Forall_lookup _ _) Hmu _ _ Hi).
Qed.

Lemma init_Inv logs0 calls : Inv logs0 calls (init logs0 calls).
Proof.
  split; simpl.
  - exists []. split; [by rewrite app_nil_r|]. intros l.
    rewrite <- list_fmap_compose.
    replace (remaining ∘ mkThread Idle) with (@id (list Log)) by done.
    by rewrite list_fmap_id.
  - apply Forall_fmap, Forall_true. done.
Qed.

Lemma run_Inv logs0 calls sched st st' :
  Inv logs0 calls st -> run sched st = Some st' -> Inv logs0 calls st'.
Proof.
  revert st. induction sched as [|i sched IH]; intros st Hinv Hrun; simpl in Hrun.
  - by inversion Hrun; subst.
  - destruct (step i st) as [st1|] eqn:Hstep; [|done].
    eapply IH; [|done]. by eapply step_Inv.
Qed.

Lemma finished_remaining th : finished th = true -> remaining th = [].
Proof. destruct th as [[] []]; done. Qed.

Lemma done_remaining ths :
  forallb finished ths = true -> Forall (fun l => l = []) (remaining <$> ths).
Proof.
  induction ths as [|th ths IH]; [by constructor|]. cbn [forallb].
  intros [Hth Hths]%andb_true_iff.
  rewrite fmap_cons. constructor; [by apply finished_remaining|by apply IH].
Qed.

(** When all callers have returned, the sink holds what it started with
    followed by an interleaving of the callers' records. *)
Lemma done_logs logs0 calls st :
  Inv logs0 calls st -> done st = true ->
  exists written, logs st = logs0 ++ written /\ Interleave calls written.
Proof.
  intros [(written & Hlogs & Hrest) _] Hdone. exists written. split; [done|].
  rewrite <- (app_nil_r written). apply Hrest.
  apply Interleave_nil. by apply done_remaining.
Qed.
End Interleaving.

Section Progress.
Import interleaving.
Implicit Types (st : state) (th : thread) (ths : list thread).

Lemma unfinished_thread ths :
  forallb finished ths = false ->
  exists i th, ths !! i = Some th /\ finished th = false.
Proof.
  induction ths as [|th ths IH]; [done|]. cbn [forallb].
  destruct (finished th) eqn:Hth; simpl.
  - intros Hrest. destruct (IH Hrest) as (i & th' & Hi & Hf).
    by exists (S i), th'.
  - intros _. by exists 0, th.
Qed.

(** No deadlock: while some caller has not returned, some thread can move. *)
Lemma progress logs0 calls st :
  Inv logs0 calls st -> done st = false -> exists i st', step i st = Some st'.
Proof.
  intros [_ Hmu] Hdone. destruct (mu st) eqn:Hm.
  - destruct Hmu as (i & th & Hi & [Hcalls Hpc] & _).
    exists i. unfold step. rewrite Hi.
    destruct th as [p [|c rest]]; [done|]. destruct p; simpl in *; eauto. done.
  - destruct (unfinished_thread _ Hdone) as (i & th & Hi & Hf).
    pose proof (proj1 (Forall_lookup _ _) Hmu _ _ Hi) as Hidle.
    exists i. unfold step. rewrite Hi, Hm.
    destruct th as [p cs]. unfold idle in Hidle. simpl in Hidle. subst p.
    destruct cs as [|c rest]; [done|]. simpl. eauto.
Qed.

(** Every step is one of the four steps of some call. *)
Lemma step_work st i st' : step i st = Some st' -> work st = S (work st').
Proof.
  unfold step, work. intros Hstep.
  destruct (threads st !! i) as [th|] eqn:Hi; [|done].
  destruct th as [p calls]. simpl in Hstep.
  destruct calls as [|c rest]; [by destruct p|].
  destruct p as [| |snap|]; [destruct (mu st); [done|]| | |];
    inversion Hstep; subst st'; clear Hstep; simpl;
    match goal with
    | |- context [<[i:=?th']> _] =>
        pose proof (work_insert _ _ _ th' Hi) as Hw
    end;
    revert Hw;
    generalize (sum_list_with work_of (threads st));
    match goal with
    | |- context [sum_list_with work_of ?ths] => generalize (sum_list_with work_of ths)
    end;
    unfold work_of; simpl; lia.
Qed.

Lemma run_work sched st st' :
  run sched st = Some st' -> work st = length sched + work st'.
Proof.
  revert st. induction sched as [|i sched IH]; intros st Hrun; simpl in Hrun.
  - by inversion Hrun.
  - destruct (step i st) as [st1|] eqn:Hstep; [|done].
    rewrite (step_work _ _ _ Hstep), (IH _ Hrun). simpl. lia.
Qed.

Lemma run_app sched1 sched2 st st1 :
  run sched1 st = Some st1 -> run (sched1 ++ sched2) st = run sched2 st1.
Proof.
  revert st. induction sched1 as [|i sched1 IH]; intros st Hrun; simpl in *.
  - by inversion Hrun.
  - destruct (step i st) as [st'|]; [by apply IH|done].
Qed.

(** From every state of a run the callers can all be brought to return. *)
Lemma completes logs0 calls st :
  Inv logs0 calls st -> exists sched st', run sched st = Some st' /\ done st' = true.
Proof.
  remember (work st) as n eqn:Hn. revert st Hn.
  induction n as [|n IH]; intros st Hn Hinv.
  - destruct (done st) eqn:Hd; [by exists [], st|].
    destruct (progress _ _ _ Hinv Hd) as (i & st1 & Hstep).
    apply step_work in Hstep. lia.
  - destruct (done st) eqn:Hd; [by exists [], st|].
    destruct (progress _ _ _ Hinv Hd) as (i & st1 & Hstep).
    destruct (IH st1) as (sched & st' & Hrun & Hdone).
    + apply step_work in Hstep. lia.
    + by eapply step_Inv.
    + exists (i :: sched), st'. simpl. by rewrite Hstep.
Qed.

Lemma work_init logs0 calls : work (init logs0 calls) = 4 * length (concat calls).
Proof.
  unfold work, init. simpl.
  induction calls as [|cs calls IH]; [done|].
  rewrite fmap_cons. cbn [sum_list_with concat]. rewrite IH, length_app.
  unfold work_of. simpl. lia.
Qed.

Lemma length_concat_uniform (N M : nat) (calls : list (list Log)) :
  length calls = N -> Forall (fun cs => length cs = M) calls ->
  length (concat calls) = N * M.
Proof.
  intros <- Hall. induction Hall as [|cs calls Hcs _ IH]; [done|].
  simpl. rewrite length_app, IH, Hcs. done.
Qed.

(** X21.  [N] callers issue [M] calls of [WriteLog] each on one sink that
    starts empty, under any schedule of their steps.  When all callers have
    returned, the sink holds exactly [N * M] records; they are an
    interleaving of the callers' records: every record whole and once, those
    of each caller in the order of its calls.  No schedule runs for more
    than four steps per call, and every run can be continued until all
    callers have returned. *)
Theorem WriteLog_callers_complete (N M : nat) (calls : list (list Log)) :
  length calls = N ->
  Forall (fun cs => length cs = M) calls ->
  (forall sched final,
      run sched (init [] calls) = Some final -> done final = true ->
      length (logs final) = N * M
      /\ Interleave calls (logs final)
      /\ logs final ≡ₚ concat calls)
  /\ (forall sched st,
        run sched (init [] calls) = Some st ->
        length sched <= 4 * (N * M)
        /\ exists sched' final,
             run (sched ++ sched') (init [] calls) = Some final
             /\ done final = true).
Proof.
  intros HN HM. pose proof (length_concat_uniform N M calls HN HM) as Hlen.
  pose proof (init_Inv [] calls) as Hinit.
  split.
  - intros sched final Hrun Hdone.
    destruct (done_logs _ _ _ (run_Inv _ _ _ _ _ Hinit Hrun) Hdone)
      as (written & Hlogs & Hil).
    simpl in Hlogs. subst written.
    pose proof (Interleave_Permutation _ _ Hil) as Hperm.
    split; [by rewrite Hperm|]. by split.
  - intros sched st Hrun. split.
    + pose proof (run_work _ _ _ Hrun) as Hw. rewrite work_init, Hlen in Hw. lia.
    + destruct (completes _ _ _ (run_Inv _ _ _ _ _ Hinit Hrun))
        as (sched' & final & Hrun' & Hd).
      exists sched', final. split; [|done]. by rewrite (run_app _ _ _ _ Hrun).
Qed.
End Progress.

Lemma WriteLog_callers_complete_witness :
  let a1 := mkLog InfoLevel "a1" nilSlice in
  let a2 := mkLog InfoLevel "a2" nilSlice in
  let b1 := mkLog WarnLevel "b1" nilSlice in
  let b2 := mkLog WarnLevel "b2" nilSlice in
  let calls := [[a1; a2]; [b1; b2]] in
  let sched := [0; 0; 0; 0; 1; 1; 1; 1; 1; 1; 1; 1; 0; 0; 0; 0] in
  let final :=
    interleaving.mkState false [a1; b1; b2; a2]
      [interleaving.mkThread interleaving.Idle [];
       interleaving.mkThread interleaving.Idle []] in
  length calls = 2
  /\ Forall (fun cs => length cs = 2) calls
  /\ interleaving.run sched (interleaving.init [] calls) = Some final
  /\ interleaving.done final = true
  /\ length (interleaving.logs final) = 2 * 2
  /\ interleaving.Interleave calls (interleaving.logs final).
Proof.
  intros a1 a2 b1 b2 calls sched final.
  assert (HN : length calls = 2) by reflexivity.
  assert (HM : Forall (fun cs => length cs = 2) calls) by (repeat constructor).
  assert (Hrun : interleaving.run sched (interleaving.init [] calls) = Some final)
    by reflexivity.
  assert (Hdone : interleaving.done final = true) by reflexivity.
  destruct (proj1 (WriteLog_callers_complete 2 2 calls HN HM) sched final Hrun Hdone)
    as (Hlen & Hil & _).
  repeat split; assumption.
Defined.

(** A thread cannot take the lock while another holds it. *)
Example Lock_waits :
  let a := mkLog InfoLevel "a" nilSlice in
  let b := mkLog InfoLevel "b" nilSlice in
  interleaving.run [0; 1] (interleaving.init [] [[a]; [b]]) = None.
Proof. reflexivity. Qed.

(** * More of the logger *)

(** ** Suppressed calls and escalation *)

Section CallShape.
Context {F : Type} {FF : Facility F}.
Implicit Types (l : Logger F) (ent : Entry F) (w : World) (fs : list Field).

(** Every logging call is its log call followed by its escalation. *)
Lemma call_eq l s msg fs w :
  let logged := (Logger.log l s msg fs w).2 in
  call l s msg fs w =
  (match s with
   | PanicLevel => Panicked msg
   | FatalLevel => Exited 1%Z
   | DPanicLevel => if Development l then Panicked msg else Ret ()
   | _ => Ret ()
   end,
   mkWorld (w_backend logged) (w_levels logged)
           (w_trace logged ++ escalation l s msg) (w_clock logged)).
Proof.
  intros logged. subst logged.
  assert (Hplain : forall lvl,
    Logger.log l lvl msg fs w =
    (Ret (), mkWorld (w_backend (Logger.log l lvl msg fs w).2)
                     (w_levels (Logger.log l lvl msg fs w).2)
                     (w_trace (Logger.log l lvl msg fs w).2 ++ [])
                     (w_clock (Logger.log l lvl msg fs w).2))).
  { intros lvl. pose proof (log_returns l lvl msg fs w) as Hret.
    destruct (Logger.log l lvl msg fs w) as [o [b lv tr c]]. simpl in *.
    by rewrite Hret, app_nil_r. }
  destruct s; cbn [call escalation];
    unfold Logger.Debug, Logger.Info, Logger.Warn, Logger.Error,
      Logger.DPanic, Logger.Panic, Logger.Fatal;
    try apply Hplain; rewrite log_then; try reflexivity.
  destruct (Development l); [reflexivity|].
  rewrite (Hplain DPanicLevel) at 1. reflexivity.
Qed.

Lemma call_new_events l s msg fs w :
  new_events w (call l s msg fs w).2
  = new_events w (Logger.log l s msg fs w).2 ++ escalation l s msg.
Proof.
  rewrite call_eq. cbn [snd]. unfold new_events at 1. cbn [w_trace].
  rewrite log_trace at 1. by rewrite <- app_assoc, drop_app_length.
Qed.

Lemma log_suppressed l s msg fs w :
  gates_pass l (mkEntry (w_clock w) s msg None) w = false ->
  Logger.log l s msg fs w = (Ret (), tick w).
Proof. intros Hg. by rewrite log_eq, Log_eq, gates_pass_tick, Hg. Qed.

(** X1.  A logging call whose record does not pass the gates does nothing
    but read the clock and escalate: the backend is untouched, no hook runs
    and nothing is reported, and the only event is the panic of [Panic] (and
    of [DPanic] in development mode) or the exit of [Fatal]. *)
Theorem suppressed_call_only_escalates l s msg fs w :
  gates_pass l (mkEntry (w_clock w) s msg None) w = false ->
  w_backend (call l s msg fs w).2 = w_backend w
  /\ new_events w (call l s msg fs w).2 = escalation l s msg
  /\ w_clock (call l s msg fs w).2 = (w_clock w + 1)%Z.
Proof.
  intros Hg. rewrite call_new_events, call_eq. cbn [snd w_backend w_clock].
  rewrite (log_suppressed _ _ _ _ _ Hg). cbn [snd]. unfold new_events. simpl.
  by rewrite drop_all.
Qed.

Lemma escalations_error_reports ws cause t errs :
  List.filter is_escalation (error_reports ws cause t errs) = [].
Proof. revert t. induction errs as [|e errs IH]; intros t; simpl; auto. Qed.

Lemma escalations_IO (calls : list IOCall) :
  List.filter is_escalation (EvIO <$> calls) = [].
Proof. induction calls; simpl; auto. Qed.

Lemma log_no_escalation l s msg fs w :
  List.filter is_escalation (new_events w (Logger.log l s msg fs w).2) = [].
Proof.
  rewrite log_eq, Log_eq. destruct (gates_pass _ _ _); cbn zeta.
  - change (new_events w) with (new_events (tick w)).
    erewrite new_events_app; [|reflexivity].
    by rewrite !List.filter_app, escalations_error_reports, escalations_IO.
  - unfold new_events. simpl. by rewrite drop_all.
Qed.

(** X2.  [Panic] always panics with its message and [Fatal] always exits
    with status 1, whatever the threshold, the facility and the hooks do;
    the panic or exit is the last event of the call and the only one of its
    kind. *)
Theorem Panic_Fatal_always_escalate l msg fs w :
  let p := Logger.Panic l msg fs w in
  let f := Logger.Fatal l msg fs w in
  p.1 = Panicked msg
  /\ new_events w p.2 = new_events w (Logger.log l PanicLevel msg fs w).2 ++ [EvPanic msg]
  /\ List.filter is_escalation (new_events w p.2) = [EvPanic msg]
  /\ f.1 = Exited 1%Z
  /\ new_events w f.2 = new_events w (Logger.log l FatalLevel msg fs w).2 ++ [EvExit 1%Z]
  /\ List.filter is_escalation (new_events w f.2) = [EvExit 1%Z].
Proof.
  intros p f. subst p f.
  pose proof (call_eq l PanicLevel msg fs w) as Hp.
  pose proof (call_new_events l PanicLevel msg fs w) as Hpe.
  pose proof (call_eq l FatalLevel msg fs w) as Hf.
  pose proof (call_new_events l FatalLevel msg fs w) as Hfe.
  cbn [call escalation] in *. cbn zeta in *.
  rewrite Hpe, Hfe, !List.filter_app, !log_no_escalation.
  rewrite Hp, Hf. done.
Qed.
End CallShape.

Lemma suppressed_call_only_escalates_witness :
  let l := New spy0 [Level_apply FatalLevel] in
  gates_pass (FF:=spyFac) l (mkEntry (w_clock w0) PanicLevel "boom" None) w0 = false
  /\ w_backend (call (FF:=spyFac) l PanicLevel "boom" [fld "k"] w0).2 = b0
  /\ new_events w0 (call (FF:=spyFac) l PanicLevel "boom" [fld "k"] w0).2 = [EvPanic "boom"]
  /\ w_clock (call (FF:=spyFac) l PanicLevel "boom" [fld "k"] w0).2 = 1%Z.
Proof.
  intros l.
  assert (Hg : gates_pass (FF:=spyFac) l (mkEntry (w_clock w0) PanicLevel "boom" None) w0
               = false) by reflexivity.
  split; [exact Hg|].
  exact (suppressed_call_only_escalates (FF:=spyFac) l PanicLevel "boom" [fld "k"] w0 Hg).
Defined.

(** ** Internal error reports, [Check] and [New] *)

Section ReportsAndCheck.
Context {F : Type} {FF : Facility F}.
Implicit Types (l : Logger F) (ent : Entry F) (w : World) (fs : list Field).

Lemma report_in_error_reports ws cause t errs (rest pre post : list Event) e :
  (forall ws' t' c' err', EvFprintf ws' t' c' err' ∉ rest) ->
  error_reports ws cause t errs ++ rest = pre ++ e :: post ->
  forall ws' t' c' err', e = EvFprintf ws' t' c' err' ->
  ws' = ws /\ c' = cause /\ exists post', post = EvIO (IO_Sync ws) :: post'.
Proof.
  intros Hrest. revert t pre.
  induction errs as [|x errs IH]; intros t pre Heq ws' t' c' err' He; subst e.
  - exfalso. simpl in Heq. eapply Hrest. rewrite Heq.
    apply elem_of_app. right. apply list_elem_of_here.
  - cbn [error_reports app] in Heq.
    destruct pre as [|a [|a' pre]]; simpl in Heq.
    + inversion Heq; subst. eauto.
    + inversion Heq.
    + inversion Heq; subst. eapply IH; eauto.
Qed.

Lemma no_Fprintf_in_delivery lvl t msg fs (calls : list IOCall) ws' t' c' err' :
  EvFprintf ws' t' c' err' ∉ [EvFacilityLog t lvl msg fs] ++ (EvIO <$> calls).
Proof.
  rewrite elem_of_app, list_elem_of_singleton, list_elem_of_fmap.
  intros [Heq|(c & Heq & _)]; discriminate.
Qed.

(** X3.  Every line that [Log] prints to a [WriteSyncer] is a report with
    cause "hook" to the logger's error output, and it is flushed at once:
    the next event is the [Sync] of that output. *)
Theorem reports_are_flushed l ent fs w pre e post ws t cause err :
  new_events w (Logger.Log l ent fs w).2 = pre ++ e :: post ->
  e = EvFprintf ws t cause err ->
  ws = ErrorOutput l /\ cause = "hook"
  /\ exists post', post = EvIO (IO_Sync (ErrorOutput l)) :: post'.
Proof.
  rewrite Log_eq. destruct (gates_pass l ent w); cbn zeta.
  - erewrite new_events_app; [|reflexivity]. intros Heq He.
    destruct (report_in_error_reports _ _ _ _ _ _ _ _
                (no_Fprintf_in_delivery _ _ _ _ _) Heq _ _ _ _ He)
      as (-> & -> & Hpost).
    done.
  - unfold new_events. rewrite drop_all. by intros []%app_cons_not_nil.
Qed.

(** X4.  [Check] returns an entry exactly when the logging call for the
    level escalates or delivers: for Debug, Info, Warn and Error, and for
    DPanic outside development mode, a non-nil result of [Check] means the
    same as delivery by the logging call. *)
Theorem Check_nonnil_iff_escalates_or_delivers l lvl msg fs w :
  (Logger.Check l lvl msg w).1 <> Ret None
  <-> escalates l lvl = true
      \/ delivered (new_events w (call l lvl msg fs w).2) = true.
Proof.
  rewrite Check_eq, call_delivered. cbn [fst]. unfold spec_proceeds, escalates.
  cbn [ent_Level].
  destruct lvl; try (destruct (Development l)); cbn [orb];
    destruct (gates_pass l _ w); split; intros H;
    try done; try (by left); try (by right); try (by destruct H).
Qed.

(** X5.  A logger made by [New] without options has the threshold Info,
    is not in development mode and reports to standard error: it delivers a
    severity exactly when that is not Debug and the facility takes the
    record, and its [DPanic] returns normally. *)
Theorem New_defaults (fac : F) s msg fs w :
  let l := New fac [] in
  (delivered (new_events w (call l s msg fs w).2) = true
   <-> s <> DebugLevel /\ fac_Enabled fac (mkEntry (w_clock w) s msg None) = true)
  /\ ErrorOutput l = Stderr
  /\ Hooks l = []
  /\ (Logger.DPanic l msg fs w).1 = Ret ().
Proof.
  intros l. split; [|split; [done|split; [done|]]].
  - rewrite call_delivered. unfold gates_pass. simpl.
    rewrite andb_true_iff. destruct s; simpl; split; intros [H1 H2]; done.
  - pose proof (call_eq l DPanicLevel msg fs w) as Hc. cbn [call] in Hc.
    by rewrite Hc.
Qed.
End ReportsAndCheck.

Lemma reports_are_flushed_witness :
  let l := mkLogger (FixedLevel InfoLevel) spy0 false [failing_hook] Stderr in
  let ent := mkEntry 0%Z InfoLevel "z" None in
  new_events w0 (Logger.Log (FF:=spyFac) l ent [] w0).2
    = [] ++ EvFprintf Stderr 0%Z "hook" "nope"
         :: [EvIO (IO_Sync Stderr); EvFacilityLog 0%Z InfoLevel "z" []]
  /\ exists post',
       [EvIO (IO_Sync Stderr); EvFacilityLog 0%Z InfoLevel "z" []]
       = EvIO (IO_Sync Stderr) :: post'.
Proof.
  intros l ent.
  assert (Hrun : new_events w0 (Logger.Log (FF:=spyFac) l ent [] w0).2
                 = [] ++ EvFprintf Stderr 0%Z "hook" "nope"
                      :: [EvIO (IO_Sync Stderr); EvFacilityLog 0%Z InfoLevel "z" []])
    by reflexivity.
  split; [exact Hrun|].
  exact (proj2 (proj2 (reports_are_flushed (FF:=spyFac) l ent [] w0 _ _ _ _ _ _ _
                         Hrun eq_refl))).
Defined.

(** ** The severity methods of the draft *)

Section DraftCalls.
Context {F : Type} {FF : Facility F}.
Implicit Types (l : Logger F) (w : World) (fs : list Field).

Lemma Draft_deliver_eq (fac : F) lvl msg fs w :
  (t ← Now; Logger.call_Facility_Log fac (mkEntry t lvl msg None) fs) w =
  (Ret (),
   mkWorld (fac_Log fac (mkEntry (w_clock w) lvl msg None) fs (w_backend w)).2
     (w_levels w)
     (w_trace w ++ [EvFacilityLog (w_clock w) lvl msg fs]
        ++ (EvIO <$> (fac_Log fac (mkEntry (w_clock w) lvl msg None) fs
                        (w_backend w)).1))
     (w_clock w + 1)%Z).
Proof.
  unfold Logger.call_Facility_Log, Logger.run_fac_Log, emit, Now, mbind, M_bind.
  simpl. destruct (fac_Log _ _ _ _) as [calls b]. simpl.
  by rewrite <- app_assoc.
Qed.

(** X6.  The severity methods of the draft consult neither the threshold
    nor the facility's [Enabled] and run no hook: every call invokes the
    facility's [Log] once, with the level of the method, the message and the
    fields as given, and then escalates as the method does. *)
Theorem Draft_calls_always_deliver l s msg fs w :
  let ent := mkEntry (w_clock w) s msg None in
  let r := Draft_call l s msg fs w in
  new_events w r.2 =
    [EvFacilityLog (w_clock w) s msg fs]
    ++ (EvIO <$> (fac_Log (log_Facility l) ent fs (w_backend w)).1)
    ++ escalation l s msg
  /\ w_backend r.2 = (fac_Log (log_Facility l) ent fs (w_backend w)).2
  /\ (r.1 = Ret () <-> escalates l s = false).
Proof.
  intros ent r. subst ent r.
  destruct s; cbn [Draft_call escalation escalates];
    unfold Draft.Debug, Draft.Info, Draft.Warn, Draft.Error,
      Draft.DPanic, Draft.Panic, Draft.Fatal;
    try (destruct (Development l));
    match goal with
    | |- context [Logger.call_Facility_Log _ (mkEntry _ ?lvl _ _) _] =>
        pose proof (Draft_deliver_eq (log_Facility l) lvl msg fs w) as Hd
    end;
    unfold mbind, M_bind in *; rewrite ?Hd;
    try (rewrite (surjective_pairing (Now w)) in Hd);
    unfold new_events, panic, _exit, mret, M_ret; simpl in *;
    try rewrite Hd; simpl;
    rewrite <- ?app_assoc, ?drop_app_length, ?app_nil_r;
    (split; [reflexivity|split; [reflexivity|split; congruence]]).
Qed.
End DraftCalls.

(** * More of the spy facility *)

Section SpyMore.
Context {G : GrowthPolicy}.
Implicit Types (sf : spy.spyFacility) (ent : Entry spy.spyFacility).
Implicit Types (b : Backend) (fs : list Field) (w : World) (h : Heap) (s : slice).

Lemma call_backend {F} {FF : Facility F} (l : Logger F) lvl msg fs w :
  w_backend (call l lvl msg fs w).2 = w_backend (Logger.log l lvl msg fs w).2.
Proof. by rewrite call_eq. Qed.

Lemma gates_pass_spy (l : Logger spy.spyFacility) ent w :
  gates_pass l ent w
  = Level_Enabled (LevelEnabler_level (log_LevelEnabler l) w) (ent_Level ent).
Proof. unfold gates_pass. simpl. by rewrite andb_true_r. Qed.

(** What a logging call on a logger over the spy facility adds to the sink. *)
Lemma spy_call_new_logs (l : Logger spy.spyFacility) lvl msg fs w :
  wf (b_heap (w_backend w)) (spy.sf_context (log_Facility l)) ->
  new_logs (spy.sf_sink (log_Facility l)) (w_backend w)
           (w_backend (call l lvl msg fs w).2)
  = if Level_Enabled (LevelEnabler_level (log_LevelEnabler l) w) lvl then
      let ent' := hooks_final (Hooks l)
                    (bound (log_Facility l) (mkEntry (w_clock w) lvl msg None)) in
      [(ent_Level ent', ent_Message ent',
        elems (b_heap (w_backend w)) (spy.sf_context (log_Facility l)) ++ fs)]
    else [].
Proof.
  intros Hwf. rewrite call_backend, log_eq.
  pose proof (spy_Logger_Log_new_logs l (mkEntry (w_clock w) lvl msg None) fs
                (tick w) Hwf) as Hlog.
  cbn zeta in Hlog. rewrite gates_pass_tick, gates_pass_spy in Hlog.
  exact Hlog.
Qed.

(** X7.  A logging call on a logger over the spy facility adds no record to
    the sink when the level is below the threshold, and otherwise exactly
    one: level and message as the hooks left them, and as fields the
    facility's context followed by the fields of the call.  This holds for
    the escalating methods as well: the record is in the sink when they
    panic or exit. *)
Theorem spy_call_captured (l : Logger spy.spyFacility) lvl msg fs w :
  wf (b_heap (w_backend w)) (spy.sf_context (log_Facility l)) ->
  new_logs (spy.sf_sink (log_Facility l)) (w_backend w)
           (w_backend (call l lvl msg fs w).2)
  = if Level_Enabled (LevelEnabler_level (log_LevelEnabler l) w) lvl then
      let ent' := hooks_final (Hooks l)
                    (bound (log_Facility l) (mkEntry (w_clock w) lvl msg None)) in
      [(ent_Level ent', ent_Message ent',
        elems (b_heap (w_backend w)) (spy.sf_context (log_Facility l)) ++ fs)]
    else [].
Proof. apply spy_call_new_logs. Qed.

Lemma new_logs_same_sinks (sink : nat) b1 b2 b' :
  b_sinks b1 = b_sinks b2 -> new_logs sink b1 b' = new_logs sink b2 b'.
Proof. intros Hs. unfold new_logs, spy.Logs, spy.Sink_logs. by rewrite Hs. Qed.

(** X8.  Deriving a child with [With] and logging through it records the
    parent's context, then the fields given to [With], then the fields of
    the call; the child gates on the parent's threshold and runs the
    parent's hooks. *)
Theorem spy_With_then_call (l : Logger spy.spyFacility) fs lvl msg fs2 w :
  wf (b_heap (w_backend w)) (spy.sf_context (log_Facility l)) ->
  let r := (child ← Logger.With l fs; call child lvl msg fs2) w in
  let sf' := (spy.With (log_Facility l) fs (w_backend w)).1 in
  new_logs (spy.sf_sink (log_Facility l)) (w_backend w) (w_backend r.2)
  = if Level_Enabled (LevelEnabler_level (log_LevelEnabler l) w) lvl then
      let ent' := hooks_final (Hooks l)
                    (bound sf' (mkEntry (w_clock w) lvl msg None)) in
      [(ent_Level ent', ent_Message ent',
        elems (b_heap (w_backend w)) (spy.sf_context (log_Facility l)) ++ fs ++ fs2)]
    else [].
Proof.
  intros Hwf r sf'. subst r sf'. unfold mbind, M_bind. rewrite With_eq.
  cbn zeta. cbn [fac_With spy.spyFacility_Facility].
  rewrite spy_With_eq. cbn [fst snd].
  set (ctx' := (append (spy.sf_context (log_Facility l)) fs (b_heap (w_backend w))).1).
  set (h' := (append (spy.sf_context (log_Facility l)) fs (b_heap (w_backend w))).2).
  set (child := mkLogger (log_LevelEnabler l) (spy.mkSpy _ ctx') (Development l)
                         (Hooks l) (ErrorOutput l)).
  set (w1 := mkWorld (mkBackend h' _) (w_levels w) (w_trace w) (w_clock w)).
  assert (Hwf' : wf (b_heap (w_backend w1)) (spy.sf_context (log_Facility child)))
    by apply (append_wf _ _ fs Hwf).
  pose proof (spy_call_new_logs child lvl msg fs2 w1 Hwf') as Hcall.
  cbn zeta in Hcall. cbn [log_Facility child spy.sf_sink spy.sf_context
                          log_LevelEnabler Hooks w1 w_backend b_heap w_clock] in Hcall.
  rewrite (new_logs_same_sinks _ _ (mkBackend h' (b_sinks (w_backend w)))) by done.
  etransitivity; [exact Hcall|].
  replace (LevelEnabler_level (log_LevelEnabler l) w1)
    with (LevelEnabler_level (log_LevelEnabler l) w)
    by (by destruct (log_LevelEnabler l)).
  destruct (Level_Enabled _ _); [|done].
  subst ctx' h'. rewrite (append_elems _ _ fs Hwf). by rewrite <- (assoc_L (++)).
Qed.
End SpyMore.

(** ** Derived spy facilities and their backing arrays *)

Section SpyArrays.
Context {G : GrowthPolicy}.
Implicit Types (sf : spy.spyFacility) (ent : Entry spy.spyFacility).
Implicit Types (b : Backend) (fs : list Field) (h : Heap) (s : slice).

Lemma append_arr h s xs :
  s_arr (append s xs h).1 = s_arr s \/ s_arr (append s xs h).1 = length h.
Proof. unfold append. destruct (_ <=? _); simpl; auto. Qed.

(** An [append] to a slice without capacity writes into no existing array. *)
Lemma append_keeps_no_room h s xs s0 :
  s_len s0 = 0 \/ s_arr s0 < length h ->
  s_cap s < s_len s + length xs \/ xs = [] ->
  elems (append s xs h).2 s0 = elems h s0.
Proof.
  intros Hvalid Hroom. unfold elems.
  destruct Hvalid as [Hz|Hin]; [by rewrite Hz|].
  unfold append.
  destruct (Nat.leb_spec (s_len s + length xs) (s_cap s)) as [Hfit|Hgrow]; simpl.
  - destruct Hroom as [Hlt| ->]; [lia|]. simpl.
    by rewrite list_alter_id.
  - by rewrite array_at_app_l.
Qed.

(** X9.  Deriving twice in a row gives the grandchild the parent's context
    followed by the fields of the first and then of the second derivation;
    the child in between and the parent keep their contexts, and all three
    write to the same sink. *)
Theorem spy_With_With sf fs1 fs2 b :
  wf (b_heap b) (spy.sf_context sf) ->
  let c1 := spy.With sf fs1 b in
  let c2 := spy.With c1.1 fs2 c1.2 in
  elems (b_heap c2.2) (spy.sf_context c2.1)
    = elems (b_heap b) (spy.sf_context sf) ++ fs1 ++ fs2
  /\ elems (b_heap c2.2) (spy.sf_context c1.1)
     = elems (b_heap b) (spy.sf_context sf) ++ fs1
  /\ elems (b_heap c2.2) (spy.sf_context sf) = elems (b_heap b) (spy.sf_context sf)
  /\ spy.sf_sink c2.1 = spy.sf_sink sf
  /\ b_sinks c2.2 = b_sinks b.
Proof.
  intros Hwf c1 c2. subst c1 c2. rewrite !spy_With_eq. cbn [fst snd b_heap
    spy.sf_context spy.sf_sink b_sinks].
  set (sc := spy.sf_context sf) in *. set (h := b_heap b) in *.
  pose proof (append_elems h sc fs1 Hwf) as He1.
  pose proof (append_wf h sc fs1 Hwf) as Hw1.
  pose proof (append_wf_other h sc fs1 sc Hwf) as Hwp.
  pose proof (append_keeps_self h sc fs1 Hwf) as Hk1.
  pose proof (append_len h sc fs1) as Hl1.
  set (s1 := (append sc fs1 h).1) in *. set (h1 := (append sc fs1 h).2) in *.
  split; [|split; [|split; [|done]]].
  - by rewrite (append_elems h1 s1 fs2 Hw1), He1, (assoc_L (++)).
  - by rewrite (append_keeps_self h1 s1 fs2 Hw1).
  - rewrite append_keeps; [done|by apply wf_valid|right; lia].
Qed.

(** X10.  Deriving with no fields changes nothing: the child is the parent
    and the backend is as before. *)
Theorem spy_With_nothing (l : Logger spy.spyFacility) w :
  wf (b_heap (w_backend w)) (spy.sf_context (log_Facility l)) ->
  Logger.With l [] w = (Ret l, w).
Proof.
  intros [Hle _]. rewrite With_eq. cbn zeta.
  cbn [fac_With spy.spyFacility_Facility]. rewrite spy_With_eq.
  cbn [fst snd]. unfold append. cbn [length].
  rewrite Nat.add_0_r. apply Nat.leb_le in Hle. rewrite Hle. cbn [fst snd].
  rewrite list_alter_id by done.
  destruct l as [le [sink [arr len cap]] dev hooks eo].
  destruct w as [[h sinks] lv tr c]. reflexivity.
Qed.

Lemma take_inserts_twice (arr : list Field) k xs1 xs2 :
  k + length xs1 <= length arr -> k + length xs2 <= length arr ->
  take (k + length xs1) (list_inserts k xs2 (list_inserts k xs1 arr))
  = take k arr ++ take (length xs1) xs2 ++ drop (length xs2) xs1.
Proof.
  intros H1 H2. apply list_eq. intros i.
  assert (Hk : length (take k arr) = k) by (rewrite length_take; lia).
  destruct (decide (i < k)) as [Hi|Hi].
  - rewrite lookup_take_lt by lia. rewrite !list_lookup_inserts_lt by done.
    rewrite lookup_app_l by lia. by rewrite lookup_take_lt.
  - rewrite (lookup_app_r (take k arr)) by lia. rewrite Hk.
    destruct (decide (i < k + length xs1)) as [Hi1|Hi1].
    + rewrite lookup_take_lt by done.
      destruct (decide (i < k + length xs2)) as [Hi2|Hi2].
      * rewrite list_lookup_inserts by (rewrite ?length_inserts; lia).
        rewrite lookup_app_l by (rewrite length_take; lia).
        by rewrite lookup_take_lt by lia.
      * rewrite list_lookup_inserts_ge by lia.
        rewrite list_lookup_inserts by lia.
        rewrite lookup_app_r by (rewrite length_take; lia).
        rewrite length_take, lookup_drop. f_equal. lia.
    + rewrite lookup_take_ge by lia. symmetry. apply lookup_ge_None_2.
      rewrite length_app, length_take, length_drop. lia.
Qed.

(** X11.  Two children derived from one parent whose array has room for
    both share that array: the second derivation writes over the fields of
    the first.  Afterwards the first child holds the parent's context, then
    the fields of the second child as far as its own length goes, then what
    is left of its own fields; the second child and the parent hold what they
    should. *)
Theorem spy_siblings_share sf fs1 fs2 b :
  wf (b_heap b) (spy.sf_context sf) ->
  s_len (spy.sf_context sf) + length fs1 <= s_cap (spy.sf_context sf) ->
  s_len (spy.sf_context sf) + length fs2 <= s_cap (spy.sf_context sf) ->
  let c1 := spy.With sf fs1 b in
  let c2 := spy.With sf fs2 c1.2 in
  elems (b_heap c1.2) (spy.sf_context c1.1)
    = elems (b_heap b) (spy.sf_context sf) ++ fs1
  /\ elems (b_heap c2.2) (spy.sf_context c1.1)
     = elems (b_heap b) (spy.sf_context sf)
         ++ take (length fs1) fs2 ++ drop (length fs2) fs1
  /\ elems (b_heap c2.2) (spy.sf_context c2.1)
     = elems (b_heap b) (spy.sf_context sf) ++ fs2
  /\ elems (b_heap c2.2) (spy.sf_context sf) = elems (b_heap b) (spy.sf_context sf).
Proof.
  intros Hwf Hroom1 Hroom2 c1 c2. subst c1 c2. rewrite !spy_With_eq.
  cbn [fst snd b_heap spy.sf_context spy.sf_sink b_sinks].
  set (sc := spy.sf_context sf) in *. set (h := b_heap b) in *.
  pose proof (append_elems h sc fs1 Hwf) as He1.
  pose proof (append_wf_other h sc fs1 sc Hwf) as Hwp.
  pose proof (append_keeps_self h sc fs1 Hwf) as Hk1.
  split; [done|]. split; [|split].
  - assert (Hlen : s_len sc + length fs1 <= length (array_at h (s_arr sc))
                   /\ s_len sc + length fs2 <= length (array_at h (s_arr sc))).
    { destruct Hwf as [Hle Harr].
      destruct (decide (s_cap sc = 0)) as [Hz|Hnz]; [lia|].
      destruct (Harr Hnz) as [_ Hl]. lia. }
    unfold append. apply Nat.leb_le in Hroom1, Hroom2.
    rewrite Hroom1. cbn [fst snd s_arr s_len s_cap]. rewrite Hroom2.
    cbn [fst snd]. unfold elems. cbn [s_arr s_len].
    rewrite !array_at_alter_inserts.
    destruct Hlen as [Hl1 Hl2]. by apply take_inserts_twice.
  - by rewrite (append_elems _ sc fs2 Hwp), Hk1.
  - by rewrite (append_keeps_self _ sc fs2 Hwp), Hk1.
Qed.

(** X12.  When the parent's array has no room for the fields, [With]
    gives the child an array of its own, and a later derivation from the
    parent leaves that child's context alone. *)
Theorem spy_child_of_full_parent_is_independent sf fs1 fs2 b :
  wf (b_heap b) (spy.sf_context sf) ->
  s_cap (spy.sf_context sf) < s_len (spy.sf_context sf) + length fs1 ->
  let c1 := spy.With sf fs1 b in
  let c2 := spy.With sf fs2 c1.2 in
  s_arr (spy.sf_context c1.1) = length (b_heap b)
  /\ elems (b_heap c2.2) (spy.sf_context c1.1)
     = elems (b_heap b) (spy.sf_context sf) ++ fs1
  /\ elems (b_heap c2.2) (spy.sf_context c2.1)
     = elems (b_heap b) (spy.sf_context sf) ++ fs2.
Proof.
  intros Hwf Hfull c1 c2. subst c1 c2. rewrite !spy_With_eq.
  cbn [fst snd b_heap spy.sf_context spy.sf_sink b_sinks].
  set (sc := spy.sf_context sf) in *. set (h := b_heap b) in *.
  pose proof (append_elems h sc fs1 Hwf) as He1.
  pose proof (append_wf h sc fs1 Hwf) as Hw1.
  pose proof (append_wf_other h sc fs1 sc Hwf) as Hwp.
  pose proof (append_keeps_self h sc fs1 Hwf) as Hk1.
  assert (Harr : s_arr (append sc fs1 h).1 = length h
                 /\ length h < length (append sc fs1 h).2).
  { unfold append. apply Nat.leb_gt in Hfull. rewrite Hfull. simpl.
    rewrite length_app. simpl. lia. }
  destruct Harr as [Harr Hgrown].
  split; [done|]. split.
  - rewrite <- He1.
    destruct (decide (s_cap sc = 0)) as [Hz|Hnz].
    + destruct Hwf as [Hle _].
      destruct (decide (fs2 = [])) as [->|Hne].
      * apply append_keeps_no_room; [right; lia|by right].
      * apply append_keeps_no_room; [right; lia|left].
        destruct fs2; [done|]. simpl. lia.
    + apply append_keeps; [right; lia|left].
      destruct Hwf as [_ Hin]. destruct (Hin Hnz) as [Hlt _]. lia.
  - by rewrite (append_elems _ sc fs2 Hwp), Hk1.
Qed.
End SpyArrays.

(** ** What the spy facility's [Log] leaves alone *)

Section SpyLogFrame.
Context {G : GrowthPolicy}.
Implicit Types (sf : spy.spyFacility) (ent : Entry spy.spyFacility).
Implicit Types (b : Backend) (fs : list Field) (h : Heap) (s : slice).

(** The heap [Log] leaves holds every well-formed slice as before, and the
    slice [all] it built is well formed. *)
Lemma Log_all_frame sf fs b s0 :
  wf (b_heap b) s0 ->
  elems (Log_all sf fs b).2 s0 = elems (b_heap b) s0
  /\ wf (Log_all sf fs b).2 s0
  /\ wf (Log_all sf fs b).2 (Log_all sf fs b).1.
Proof.
  intros Hwf. unfold Log_all.
  set (c := length fs + s_len (spy.sf_context sf)).
  pose proof (make_wf c (b_heap b)) as Hw0.
  pose proof (make_keeps c (b_heap b) _ Hwf) as Hk0.
  pose proof (make_wf_other c (b_heap b) _ Hwf) as Hwk0.
  unfold make in *. simpl in *.
  set (h1 := b_heap b ++ [replicate c zeroField]) in *.
  set (all0 := Slice (length (b_heap b)) 0 c) in *.
  assert (Hlen1 : length h1 = S (length (b_heap b)))
    by (subst h1; rewrite length_app; simpl; lia).
  set (ctx := elems h1 (spy.sf_context sf)) in *.
  pose proof (append_wf h1 all0 ctx Hw0) as Hw1.
  pose proof (append_wf_other h1 all0 ctx _ Hwk0) as Hwk1.
  pose proof (append_arr h1 all0 ctx) as Harr1.
  pose proof (append_length_heap h1 all0 ctx) as Hgrow1.
  assert (Hk1 : elems (append all0 ctx h1).2 s0 = elems (b_heap b) s0).
  { rewrite <- Hk0. apply append_keeps; [by apply wf_valid|].
    destruct (wf_valid _ _ Hwf) as [Hz|Hin]; [right; lia|left; simpl; lia]. }
  destruct (append all0 ctx h1) as [all1 h2]. simpl in *.
  pose proof (append_wf h2 all1 fs Hw1) as Hw2.
  pose proof (append_wf_other h2 all1 fs _ Hwk1) as Hwk2.
  assert (Hk2 : elems (append all1 fs h2).2 s0 = elems (b_heap b) s0).
  { rewrite <- Hk1. apply append_keeps; [by apply wf_valid|].
    destruct (wf_valid _ _ Hwf) as [Hz|Hin]; [right; lia|left].
    destruct Harr1 as [-> | ->]; lia. }
  done.
Qed.

(** X13.  The spy facility's [Log] makes no call on an encoder or an output,
    leaves the logs of every other sink as they were, and leaves every
    well-formed slice of the heap with the elements it had: the contexts of
    all facilities and the fields of all records captured before. *)
Theorem spy_Log_frame sf ent fs b s0 (sink : nat) :
  wf (b_heap b) s0 ->
  sink <> spy.sf_sink sf ->
  let r := spy.Log sf ent fs b in
  r.1 = []
  /\ elems (b_heap r.2) s0 = elems (b_heap b) s0
  /\ wf (b_heap r.2) s0
  /\ spy.Logs sink r.2 = spy.Logs sink b.
Proof.
  intros Hwf Hne r. subst r. rewrite spy_Log_eq. cbn [fst snd].
  destruct (Log_all_frame sf fs b s0 Hwf) as (Hk & Hw & _).
  split; [done|]. split; [done|]. split; [done|].
  unfold spy.Logs. by rewrite Sink_logs_WriteLog_ne.
Qed.

(** X14.  The fields of a call do not stay with the facility: two calls of
    [Log] in a row leave two records in the sink, each with the context
    followed by the fields of its own call, and the first record reads the
    same after the second call. *)
Theorem spy_Log_twice sf ent1 fs1 ent2 fs2 b :
  wf (b_heap b) (spy.sf_context sf) ->
  let b1 := (spy.Log sf ent1 fs1 b).2 in
  let b2 := (spy.Log sf ent2 fs2 b1).2 in
  exists lg1 lg2,
    spy.Logs (spy.sf_sink sf) b2 = spy.Logs (spy.sf_sink sf) b ++ [lg1; lg2]
    /\ Log_view b2 lg1
       = (ent_Level ent1, ent_Message ent1,
          elems (b_heap b) (spy.sf_context sf) ++ fs1)
    /\ Log_view b2 lg2
       = (ent_Level ent2, ent_Message ent2,
          elems (b_heap b) (spy.sf_context sf) ++ fs2).
Proof.
  intros Hwf b1 b2.
  destruct (Log_all_elems sf fs1 b Hwf) as (Hall1 & Hctx1 & Hwctx1).
  destruct (Log_all_frame sf fs1 b _ Hwf) as (_ & _ & Hwall1).
  assert (Hb1 : b1 = spy.WriteLog (spy.sf_sink sf) (ent_Level ent1) (ent_Message ent1)
                       (Log_all sf fs1 b).1 (mkBackend (Log_all sf fs1 b).2 (b_sinks b)))
    by (subst b1; by rewrite spy_Log_eq).
  assert (Hh1 : b_heap b1 = (Log_all sf fs1 b).2) by (by rewrite Hb1).
  rewrite <- Hh1 in Hall1, Hctx1, Hwctx1, Hwall1.
  destruct (spy_Log_logs sf ent2 fs2 b1 Hwctx1) as (lg2 & Hlogs2 & Hview2).
  fold b2 in Hlogs2, Hview2.
  destruct (Log_all_frame sf fs2 b1 _ Hwall1) as (Hkeep & _ & _).
  exists (mkLog (ent_Level ent1) (ent_Message ent1) (Log_all sf fs1 b).1), lg2.
  split; [|split].
  - rewrite Hlogs2. unfold spy.Logs. rewrite Hb1, Sink_logs_WriteLog.
    by rewrite <- (assoc_L (++)).
  - unfold Log_view. cbn [Log_Level Log_Msg Log_Fields].
    subst b2. rewrite spy_Log_eq. cbn [snd]. unfold spy.WriteLog. cbn [b_heap].
    by rewrite Hkeep, Hall1.
  - by rewrite Hview2, Hctx1.
Qed.
End SpyLogFrame.

(** ** The spy facility on a concrete heap *)

Lemma wf_sf_ab : wf (b_heap b_ab) (spy.sf_context sf_ab).
Proof. split; simpl; [lia|]. intros _. split; [lia|reflexivity]. Qed.

Lemma wf_sf_full : wf (b_heap b_ab) (spy.sf_context sf_full).
Proof. split; simpl; [lia|]. intros _. split; [lia|reflexivity]. Qed.

Lemma spy_call_captured_witness :
  let l := mkLogger (FixedLevel WarnLevel) sf_ab false [shouting_hook] Stderr in
  wf (b_heap (w_backend w_ab)) (spy.sf_context (log_Facility l))
  /\ new_logs 0 b_ab (w_backend (call (FF:=spyFac) l ErrorLevel "y" [fld "x"] w_ab).2)
     = [(ErrorLevel, "y!", [fld "a"; fld "b"; fld "x"])]
  /\ new_logs 0 b_ab (w_backend (call (FF:=spyFac) l InfoLevel "x" [fld "x"] w_ab).2)
     = [].
Proof.
  intros l. split; [exact wf_sf_ab|]. split.
  - exact (spy_call_captured (G:=doubling) l ErrorLevel "y" [fld "x"] w_ab wf_sf_ab).
  - exact (spy_call_captured (G:=doubling) l InfoLevel "x" [fld "x"] w_ab wf_sf_ab).
Defined.

Lemma spy_With_then_call_witness :
  let l := mkLogger (FixedLevel InfoLevel) sf_ab false [] Stderr in
  wf (b_heap (w_backend w_ab)) (spy.sf_context (log_Facility l))
  /\ new_logs 0 b_ab
       (w_backend ((child ← Logger.With (FF:=spyFac) l [fld "request_id"];
                    call (FF:=spyFac) child InfoLevel "start" [fld "x"]) w_ab).2)
     = [(InfoLevel, "start", [fld "a"; fld "b"; fld "request_id"; fld "x"])].
Proof.
  intros l. split; [exact wf_sf_ab|].
  exact (spy_With_then_call (G:=doubling) l [fld "request_id"] InfoLevel "start"
           [fld "x"] w_ab wf_sf_ab).
Defined.

Lemma spy_With_With_witness :
  let c1 := spy.With (G:=doubling) sf_ab [fld "c"] b_ab in
  let c2 := spy.With (G:=doubling) c1.1 [fld "d"; fld "e"] c1.2 in
  wf (b_heap b_ab) (spy.sf_context sf_ab)
  /\ elems (b_heap c2.2) (spy.sf_context c2.1)
     = [fld "a"; fld "b"] ++ [fld "c"] ++ [fld "d"; fld "e"]
  /\ elems (b_heap c2.2) (spy.sf_context c1.1) = [fld "a"; fld "b"] ++ [fld "c"].
Proof.
  intros c1 c2.
  destruct (spy_With_With (G:=doubling) sf_ab [fld "c"] [fld "d"; fld "e"] b_ab wf_sf_ab)
    as (H2 & H1 & _).
  split; [exact wf_sf_ab|]. split; [exact H2 | exact H1].
Defined.

Lemma spy_With_nothing_witness :
  let l := mkLogger (FixedLevel InfoLevel) sf_ab false [] Stderr in
  wf (b_heap (w_backend w_ab)) (spy.sf_context (log_Facility l))
  /\ Logger.With (FF:=spyFac) l [] w_ab = (Ret l, w_ab).
Proof.
  intros l. split; [exact wf_sf_ab|].
  exact (spy_With_nothing (G:=doubling) l w_ab wf_sf_ab).
Defined.

Lemma spy_siblings_share_witness :
  let c1 := spy.With (G:=doubling) sf_ab [fld "c"; fld "d"] b_ab in
  let c2 := spy.With (G:=doubling) sf_ab [fld "e"] c1.2 in
  wf (b_heap b_ab) (spy.sf_context sf_ab)
  /\ 2 + 2 <= 4 /\ 2 + 1 <= 4
  /\ elems (b_heap c1.2) (spy.sf_context c1.1) = [fld "a"; fld "b"] ++ [fld "c"; fld "d"]
  /\ elems (b_heap c2.2) (spy.sf_context c1.1)
     = [fld "a"; fld "b"] ++ [fld "e"] ++ [fld "d"].
Proof.
  intros c1 c2.
  assert (H1 : 2 + 2 <= 4) by lia. assert (H2 : 2 + 1 <= 4) by lia.
  destruct (spy_siblings_share (G:=doubling) sf_ab [fld "c"; fld "d"] [fld "e"] b_ab
              wf_sf_ab H1 H2) as (Hc1 & Hafter & _).
  split; [exact wf_sf_ab|]. split; [exact H1|]. split; [exact H2|].
  split; [exact Hc1 | exact Hafter].
Defined.

Lemma spy_child_of_full_parent_witness :
  let c1 := spy.With (G:=doubling) sf_full [fld "c"] b_ab in
  let c2 := spy.With (G:=doubling) sf_full [fld "e"] c1.2 in
  wf (b_heap b_ab) (spy.sf_context sf_full)
  /\ 2 < 2 + 1
  /\ elems (b_heap c2.2) (spy.sf_context c1.1) = [fld "p"; fld "q"] ++ [fld "c"]
  /\ elems (b_heap c2.2) (spy.sf_context c2.1) = [fld "p"; fld "q"] ++ [fld "e"].
Proof.
  intros c1 c2. assert (H1 : 2 < 2 + 1) by lia.
  destruct (spy_child_of_full_parent_is_independent (G:=doubling) sf_full [fld "c"]
              [fld "e"] b_ab wf_sf_full H1) as (_ & Hc1 & Hc2).
  split; [exact wf_sf_full|]. split; [exact H1|]. split; [exact Hc1 | exact Hc2].
Defined.

Lemma spy_Log_frame_witness :
  let ent := mkEntry 0%Z InfoLevel "m" (Some sf_ab) in
  let r := spy.Log (G:=doubling) sf_ab ent [fld "x"] b_ab in
  wf (b_heap b_ab) (Slice 1 2 2) /\ 7 <> spy.sf_sink sf_ab
  /\ r.1 = []
  /\ elems (b_heap r.2) (Slice 1 2 2) = [fld "p"; fld "q"]
  /\ spy.Logs 7 r.2 = [].
Proof.
  intros ent r. assert (Hne : 7 <> spy.sf_sink sf_ab) by discriminate.
  destruct (spy_Log_frame (G:=doubling) sf_ab ent [fld "x"] b_ab (Slice 1 2 2) 7
              wf_sf_full Hne) as (Hcalls & Hkeep & _ & Hsink).
  split; [exact wf_sf_full|]. split; [exact Hne|].
  split; [exact Hcalls|]. split; [exact Hkeep | exact Hsink].
Defined.

Lemma spy_Log_twice_witness :
  let e1 := mkEntry 0%Z InfoLevel "one" (Some sf_ab) in
  let e2 := mkEntry 1%Z WarnLevel "two" (Some sf_ab) in
  let b1 := (spy.Log (G:=doubling) sf_ab e1 [fld "x"] b_ab).2 in
  let b2 := (spy.Log (G:=doubling) sf_ab e2 [fld "y"] b1).2 in
  wf (b_heap b_ab) (spy.sf_context sf_ab)
  /\ exists lg1 lg2,
       spy.Logs 0 b2 = [] ++ [lg1; lg2]
       /\ Log_view b2 lg1 = (InfoLevel, "one", [fld "a"; fld "b"] ++ [fld "x"])
       /\ Log_view b2 lg2 = (WarnLevel, "two", [fld "a"; fld "b"] ++ [fld "y"]).
Proof.
  intros e1 e2 b1 b2. split; [exact wf_sf_ab|].
  exact (spy_Log_twice (G:=doubling) sf_ab e1 [fld "x"] e2 [fld "y"] b_ab wf_sf_ab).
Defined.

(** * More of the io facility *)

Section IoMore.
Implicit Types (iof : io.ioFacility) (ent : Entry io.ioFacility).
Implicit Types (b : Backend) (fs : list Field).

(** X15.  The io facility's [Log] does the same whether [WriteEntry] fails
    or not: with any other error behaviour of the encoder the calls are the
    same.  It releases the clone with exactly one [Free], also after a failed
    write, addresses no output but its own, and leaves the backend state
    alone. *)
Theorem io_Log_ignores_write_error iof ent fs b
    (err' : list Field -> string -> Level -> Time -> option error) :
  let iof' := io.mkIO (mkEncoder (enc_fields (io.iof_Encoder iof)) err')
                      (io.iof_Output iof) in
  io.Log iof' ent fs b = io.Log iof ent fs b
  /\ length (List.filter is_free (io.Log iof ent fs b).1) = 1
  /\ Forall (fun c => IOCall_target c = None
                      \/ IOCall_target c = Some (io.iof_Output iof))
            (io.Log iof ent fs b).1
  /\ (io.Log iof ent fs b).2 = b.
Proof.
  intros iof'. subst iof'. rewrite !io_Log_eq. cbn [fst snd].
  split; [done|]. split; [by destruct (Level_gtb _ _)|]. split; [|done].
  destruct (Level_gtb _ _); cbn [app];
    repeat (apply Forall_cons; split; [simpl; auto|]); apply Forall_nil_2.
Qed.

End IoMore.

(** * More of the concurrent sink *)

Section InterleavingMore.
Import interleaving.
Implicit Types (st : state) (th : thread) (ths : list thread).

(** X17.  At every point of every run at most one caller is between
    [Lock] and [Unlock], the mutex is held exactly when one is, and a caller
    that has read [s.logs] finds the sink unchanged when it assigns. *)
Theorem WriteLog_mutual_exclusion logs0 calls sched st :
  run sched (init logs0 calls) = Some st ->
  (forall i j thi thj,
      threads st !! i = Some thi -> threads st !! j = Some thj ->
      th_pc thi <> Idle -> th_pc thj <> Idle -> i = j)
  /\ (mu st = true <-> exists i th, threads st !! i = Some th /\ th_pc th <> Idle)
  /\ (forall i th snap,
        threads st !! i = Some th -> th_pc th = Appending snap -> snap = logs st).
Proof.
  intros Hrun.
  destruct (run_Inv _ _ _ _ _ (init_Inv logs0 calls) Hrun) as [_ Hmu].
  destruct (mu st) eqn:Hm.
  - destruct Hmu as (k & thk & Hk & [Hcalls Hpc] & Hothers).
    assert (Hholder : forall i th, threads st !! i = Some th -> th_pc th <> Idle -> i = k).
    { intros i th Hi Hbusy. by eapply holder_unique. }
    split; [|split].
    + intros i j thi thj Hi Hj Hbi Hbj.
      rewrite (Hholder _ _ Hi Hbi), (Hholder _ _ Hj Hbj). done.
    + split; [|done]. intros _. exists k, thk. split; [done|].
      by destruct (th_pc thk).
    + intros i th snap Hi Hsnap.
      assert (i = k) as -> by (eapply Hholder; [done|by rewrite Hsnap]).
      rewrite Hk in Hi. inversion Hi; subst th. by rewrite Hsnap in Hpc.
  - assert (Hidle : forall i th, threads st !! i = Some th -> th_pc th = Idle)
      by (intros i th Hi; by apply (proj1 (Forall_lookup _ _) Hmu i th)).
    split; [|split].
    + intros i j thi thj Hi Hj Hbi _. by rewrite (Hidle _ _ Hi) in Hbi.
    + split; [done|]. intros (i & th & Hi & Hbusy). by rewrite (Hidle _ _ Hi) in Hbusy.
    + intros i th snap Hi Hsnap. by rewrite (Hidle _ _ Hi) in Hsnap.
Qed.

Lemma step_grows logs0 calls st i st' :
  Inv logs0 calls st -> step i st = Some st' -> logs st `prefix_of` logs st'.
Proof.
  intros [_ Hmu] Hstep. unfold step in Hstep.
  destruct (threads st !! i) as [th|] eqn:Hi; [|done].
  destruct th as [p cs]. simpl in Hstep.
  destruct cs as [|c rest]; [by destruct p|].
  destruct p as [| |snap|].
  - destruct (mu st); [done|]. by inversion Hstep.
  - by inversion Hstep.
  - inversion Hstep; subst st'; clear Hstep. simpl.
    destruct (mu st) eqn:Hm.
    + destruct Hmu as (k & thk & Hk & Hinside & Hothers).
      assert (i = k) as <- by (by eapply holder_unique).
      rewrite Hi in Hk. inversion Hk; subst thk.
      destruct Hinside as [_ Hsnap]. simpl in Hsnap. subst snap.
      by apply prefix_app_r.
    + exfalso. by pose proof (proj1 (Forall_lookup _ _) Hmu _ _ Hi).
  - by inversion Hstep.
Qed.

Lemma run_grows logs0 calls sched st st' :
  Inv logs0 calls st -> run sched st = Some st' -> logs st `prefix_of` logs st'.
Proof.
  revert st. induction sched as [|i sched IH]; intros st Hinv Hrun; simpl in Hrun.
  - by inversion Hrun.
  - destruct (step i st) as [st1|] eqn:Hstep; [|done].
    etransitivity; [by eapply step_grows|].
    apply IH; [by eapply step_Inv|done].
Qed.

(** X18.  Under concurrent callers the sink only grows: along every run,
    what the sink holds at one point is a prefix of what it holds later, so
    no record, old or new, is lost or overwritten.  When all callers have
    returned, the sink holds what it started with followed by an
    interleaving of the callers' records, whatever the numbers of their
    calls. *)
Theorem WriteLog_sink_only_grows logs0 calls sched1 sched2 st1 st2 :
  run sched1 (init logs0 calls) = Some st1 ->
  run sched2 st1 = Some st2 ->
  logs0 `prefix_of` logs st1
  /\ logs st1 `prefix_of` logs st2
  /\ (done st2 = true ->
      exists written,
        logs st2 = logs0 ++ written
        /\ Interleave calls written
        /\ length written = length (concat calls)).
Proof.
  intros Hrun1 Hrun2.
  pose proof (init_Inv logs0 calls) as Hinit.
  pose proof (run_Inv _ _ _ _ _ Hinit Hrun1) as Hinv1.
  pose proof (run_Inv _ _ _ _ _ Hinv1 Hrun2) as Hinv2.
  split; [exact (run_grows _ _ _ _ _ Hinit Hrun1)|].
  split; [exact (run_grows _ _ _ _ _ Hinv1 Hrun2)|].
  intros Hdone. destruct (done_logs _ _ _ Hinv2 Hdone) as (written & Hlogs & Hil).
  exists written. split; [done|]. split; [done|].
  by rewrite (Interleave_Permutation _ _ Hil).
Qed.
End InterleavingMore.

Lemma WriteLog_mutual_exclusion_witness :
  let a := mkLog InfoLevel "a" nilSlice in
  let b := mkLog InfoLevel "b" nilSlice in
  let st := interleaving.mkState true []
              [interleaving.mkThread (interleaving.Appending []) [a];
               interleaving.mkThread interleaving.Idle [b]] in
  interleaving.run [0; 0] (interleaving.init [] [[a]; [b]]) = Some st
  /\ (interleaving.mu st = true
      <-> exists i th, interleaving.threads st !! i = Some th
                       /\ interleaving.th_pc th <> interleaving.Idle).
Proof.
  intros a b st.
  assert (Hrun : interleaving.run [0; 0] (interleaving.init [] [[a]; [b]]) = Some st)
    by reflexivity.
  split; [exact Hrun|].
  exact (proj1 (proj2 (WriteLog_mutual_exclusion [] [[a]; [b]] [0; 0] st Hrun))).
Defined.

Lemma WriteLog_sink_only_grows_witness :
  let old := mkLog ErrorLevel "old" nilSlice in
  let a := mkLog InfoLevel "a" nilSlice in
  let b := mkLog InfoLevel "b" nilSlice in
  let st1 := interleaving.mkState false [old; b]
               [interleaving.mkThread interleaving.Idle [a];
                interleaving.mkThread interleaving.Idle []] in
  let st2 := interleaving.mkState false [old; b; a]
               [interleaving.mkThread interleaving.Idle [];
                interleaving.mkThread interleaving.Idle []] in
  interleaving.run [1; 1; 1; 1] (interleaving.init [old] [[a]; [b]]) = Some st1
  /\ interleaving.run [0; 0; 0; 0] st1 = Some st2
  /\ [old] `prefix_of` interleaving.logs st1
  /\ interleaving.logs st1 `prefix_of` interleaving.logs st2.
Proof.
  intros old a b st1 st2.
  assert (H1 : interleaving.run [1; 1; 1; 1] (interleaving.init [old] [[a]; [b]])
               = Some st1) by reflexivity.
  assert (H2 : interleaving.run [0; 0; 0; 0] st1 = Some st2) by reflexivity.
  destruct (WriteLog_sink_only_grows [old] [[a]; [b]] _ _ st1 st2 H1 H2)
    as (Hp1 & Hp2 & _).
  split; [exact H1|]. split; [exact H2|]. split; [exact Hp1 | exact Hp2].
Defined.

(** * Goroutines logging through one logger *)

Section Goroutines.
Import goroutines.
Context {G : GrowthPolicy}.
Variable l : Logger spy.spyFacility.
Implicit Types (st : state) (th : thread) (ths : list thread) (c : Call) (w : World).

Lemma log_to_WriteLog_eq c w :
  log_to_WriteLog l c w =
  if Level_Enabled (LevelEnabler_level (log_LevelEnabler l) w) (c_Level c) then
    let ent0 := bound (log_Facility l) (mkEntry (w_clock w) (c_Level c) (c_Msg c) None) in
    let ent := hooks_final (Hooks l) ent0 in
    let errs := hooks_errors (Hooks l) ent0 in
    let b := w_backend w in
    (Ret (Some (mkLog (ent_Level ent) (ent_Message ent)
                  (Log_all (log_Facility l) (c_Fields c) b).1)),
     mkWorld (mkBackend (Log_all (log_Facility l) (c_Fields c) b).2 (b_sinks b))
       (w_levels w)
       (w_trace w ++ error_reports (ErrorOutput l) "hook" (w_clock w + 1)%Z errs
          ++ [EvFacilityLog (ent_Time ent) (ent_Level ent) (ent_Message ent) (c_Fields c)])
       (w_clock w + 1 + Z.of_nat (length errs))%Z)
  else (Ret None, tick w).
Proof.
  unfold log_to_WriteLog, mbind, M_bind, Now.
  rewrite LevelEnabler_Enabled_eq. cbn [ent_Level].
  replace (LevelEnabler_level (log_LevelEnabler l) (tick w))
    with (LevelEnabler_level (log_LevelEnabler l) w) by (by destruct (log_LevelEnabler l)).
  destruct (Level_Enabled _ _); simpl; [|done].
  rewrite run_hooks_eq. simpl.
  unfold on_backend, emit. simpl.
  destruct (Log_all _ _ _) as [all h]. simpl.
  by rewrite <- !app_assoc.
Qed.

(** [log] is the call up to [WriteLog] followed by [WriteLog]. *)
Lemma log_splits c w :
  Logger.log l (c_Level c) (c_Msg c) (c_Fields c) w =
  match log_to_WriteLog l c w with
  | (Ret (Some lg), w') =>
      (Ret (),
       mkWorld (spy.WriteLog (sink l) (Log_Level lg) (Log_Msg lg) (Log_Fields lg)
                  (w_backend w'))
               (w_levels w') (w_trace w') (w_clock w'))
  | (Ret None, w') => (Ret (), w')
  | (Panicked msg, w') => (Panicked msg, w')
  | (Exited code, w') => (Exited code, w')
  end.
Proof.
  rewrite log_eq, Log_eq, log_to_WriteLog_eq, gates_pass_tick, gates_pass_spy.
  cbn [ent_Level].
  destruct (Level_Enabled _ _); [|done]. cbn zeta.
  cbn [fac_Log spy.spyFacility_Facility]. rewrite spy_Log_eq.
  cbn [fst snd w_backend w_levels w_trace w_clock tick Log_Level Log_Msg Log_Fields
       fmap list_fmap].
  unfold sink. by rewrite app_nil_r.
Qed.

Lemma LevelEnabler_level_levels (le : LevelEnabler) w w' :
  w_levels w = w_levels w' -> LevelEnabler_level le w = LevelEnabler_level le w'.
Proof. intros Heq. destruct le; [done|]. simpl. unfold AtomicLevel_Level. by rewrite Heq. Qed.

Lemma sound_grown ctx b b' c lg :
  (forall s0, wf (b_heap b) s0 ->
              elems (b_heap b') s0 = elems (b_heap b) s0 /\ wf (b_heap b') s0) ->
  sound l ctx b c lg -> sound l ctx b' c lg.
Proof.
  intros Hgrow [Hwf [t Hview]]. destruct (Hgrow _ Hwf) as [He Hw].
  split; [done|]. exists t. unfold Log_view in *. cbn zeta in *. by rewrite He.
Qed.

Lemma holds_record_grown ctx b b' th :
  (forall s0, wf (b_heap b) s0 ->
              elems (b_heap b') s0 = elems (b_heap b) s0 /\ wf (b_heap b') s0) ->
  holds_record l ctx b th -> holds_record l ctx b' th.
Proof.
  intros Hgrow. unfold holds_record.
  destruct (th_pc th); try done;
    intros (c & rest & Hc & Hs); exists c, rest; (split; [done|]);
    by eapply sound_grown.
Qed.

Lemma remaining_insert_kept ths i th th' :
  ths !! i = Some th -> remaining th' = remaining th ->
  remaining <$> <[i:=th']> ths = remaining <$> ths.
Proof.
  intros Hi Heq. rewrite list_fmap_insert, Heq.
  apply list_insert_id. by rewrite list_lookup_fmap, Hi.
Qed.

Lemma Logs_assign_logs logs w :
  spy.Logs (sink l) (w_backend (assign_logs l logs w)) = logs.
Proof. unfold spy.Logs, spy.Sink_logs, assign_logs. simpl. by rewrite lookup_insert_eq. Qed.

Lemma holder_is st i j th' :
  (forall k th0, k <> i -> threads st !! k = Some th0 -> outside th0) ->
  threads st !! j = Some th' -> ~ outside th' -> j = i.
Proof.
  intros Hothers Hj Hbusy. destruct (decide (j = i)) as [|Hne]; [done|].
  exfalso. apply Hbusy. by eapply Hothers.
Qed.

Lemma lookup_insert_thread ths i (th' : thread) j th0 :
  <[i:=th']> ths !! j = Some th0 ->
  (j = i /\ th0 = th') \/ (j <> i /\ ths !! j = Some th0).
Proof.
  intros Hj. destruct (decide (j = i)) as [->|Hne].
  - left. split; [done|].
    rewrite list_lookup_insert_eq in Hj; [congruence|].
    apply lookup_lt_Some in Hj. by rewrite length_insert in Hj.
  - right. split; [done|]. by rewrite list_lookup_insert_ne in Hj.
Qed.

(** Every step keeps the invariant. *)
Lemma step_keeps_Inv w0 calls st i st' :
  Inv l w0 calls st -> step l i st = Some st' -> Inv l w0 calls st'.
Proof.
  intros (Hlv & [Hwf Hctx] & Hths & (written & order & Hlogs & Hsound & Hrest) & Hmu) Hstep.
  unfold step in Hstep.
  destruct (threads st !! i) as [th|] eqn:Hi; [|done].
  assert (Hlt : i < length (threads st)) by by eapply lookup_lt_Some.
  pose proof (proj1 (Forall_lookup _ _) Hths _ _ Hi) as [Hen Hrec].
  destruct th as [p cs]. cbn [th_pc th_calls] in *.
  destruct cs as [|c rest]; [by destruct p|].
  destruct p as [|lg|lg|lg snap|].
  - (* the call, up to WriteLog *)
    rewrite log_to_WriteLog_eq in Hstep.
    apply Forall_cons in Hen as [Hc Hen]. unfold enabled in Hc.
    rewrite (LevelEnabler_level_levels _ _ _ Hlv), Hc in Hstep. cbn zeta in Hstep.
    inversion Hstep; subst st'; clear Hstep.
    set (b := w_backend (world st)) in *.
    set (sf := log_Facility l) in *.
    assert (Hgrow : forall s0, wf (b_heap b) s0 ->
              elems (Log_all sf (c_Fields c) b).2 s0 = elems (b_heap b) s0
              /\ wf (Log_all sf (c_Fields c) b).2 s0).
    { intros s0 Hs0. by destruct (Log_all_frame sf (c_Fields c) b s0 Hs0) as (? & ? & _). }
    destruct (Log_all_frame sf (c_Fields c) b _ Hwf) as (_ & _ & Hnew).
    destruct (Log_all_elems sf (c_Fields c) b Hwf) as (Hall & _ & _).
    unfold Inv. cbn [world mu threads w_backend w_levels b_heap b_sinks].
    split; [done|]. split.
    { destruct (Hgrow _ Hwf) as [He Hw]. split; [exact Hw|]. etrans; [exact He|exact Hctx]. }
    split.
    { apply Forall_insert.
      - eapply Forall_impl; [exact Hths|]. intros th [? ?]. split; [done|].
        by eapply holds_record_grown.
      - split; [by apply Forall_cons|]. unfold holds_record. cbn [th_pc th_calls].
        exists c, rest. split; [done|].
        split; [exact Hnew|]. exists (w_clock (world st)). unfold Log_view.
        cbn [Log_Level Log_Msg Log_Fields b_heap]. f_equal.
        etrans; [exact Hall|]. by rewrite Hctx. }
    split.
    { exists written, order. split; [done|]. split.
      - eapply Forall2_impl; [exact Hsound|]. intros ? ? ?. by eapply sound_grown.
      - by rewrite (remaining_insert_kept _ _ _ _ Hi). }
    destruct (mu st) eqn:Hm.
    + destruct Hmu as (k & thk & Hk & Hinside & Hothers).
      assert (Hne : k <> i).
      { intros ->. rewrite Hi in Hk. inversion Hk; subst thk. by destruct Hinside. }
      exists k, thk. split; [by rewrite list_lookup_insert_ne|]. split; [done|].
      intros j th' Hj Hl.
      destruct (lookup_insert_thread _ _ _ _ _ Hl) as [[-> ->]|[_ Hl']]; [done|].
      by eapply Hothers.
    + by apply Forall_insert.
  - (* Lock *)
    destruct (mu st) eqn:Hm; [done|]. inversion Hstep; subst st'; clear Hstep.
    unfold Inv. cbn [world mu threads].
    split; [done|]. split; [done|]. split.
    { apply Forall_insert; [done|]. done. }
    split.
    { exists written, order. split; [done|]. split; [done|].
      by rewrite (remaining_insert_kept _ _ _ _ Hi). }
    exists i, (mkThread (Locked lg) (c :: rest)).
    split; [by apply list_lookup_insert_eq|]. split; [done|].
    intros j th' Hne Hj. rewrite list_lookup_insert_ne in Hj by done.
    by eapply (proj1 (Forall_lookup _ _) Hmu).
  - (* the read of s.logs *)
    inversion Hstep; subst st'; clear Hstep.
    unfold Inv. cbn [world mu threads].
    split; [done|]. split; [done|]. split.
    { apply Forall_insert; [done|]. done. }
    split.
    { exists written, order. split; [done|]. split; [done|].
      by rewrite (remaining_insert_kept _ _ _ _ Hi). }
    destruct (mu st) eqn:Hm.
    + destruct Hmu as (k & thk & Hk & Hinside & Hothers).
      assert (i = k) as <-
        by exact (holder_is st k i _ Hothers Hi (fun H => H)).
      exists i, (mkThread (Appending lg (spy.Logs (sink l) (w_backend (world st))))
                          (c :: rest)).
      split; [by apply list_lookup_insert_eq|]. split; [done|].
      intros j th' Hne Hj. rewrite list_lookup_insert_ne in Hj by done.
      by eapply Hothers.
    + exfalso. by pose proof (proj1 (Forall_lookup _ _) Hmu _ _ Hi).
  - (* the assignment to s.logs *)
    inversion Hstep; subst st'; clear Hstep.
    destruct (mu st) eqn:Hm;
      [|exfalso; by pose proof (proj1 (Forall_lookup _ _) Hmu _ _ Hi)].
    destruct Hmu as (k & thk & Hk & Hinside & Hothers).
    assert (i = k) as <-
        by exact (holder_is st k i _ Hothers Hi (fun H => H)).
    rewrite Hi in Hk. inversion Hk; subst thk; clear Hk.
    destruct Hinside as [_ Hsnap]. cbn in Hsnap. subst snap.
    destruct Hrec as (c' & rest' & Hc' & Hs'). inversion Hc'; subst c' rest'; clear Hc'.
    unfold Inv. cbn [world mu threads].
    rewrite Logs_assign_logs.
    assert (Hheap : forall s0, wf (b_heap (w_backend (world st))) s0 ->
              elems (b_heap (w_backend (assign_logs l
                 (spy.Logs (sink l) (w_backend (world st)) ++ [lg]) (world st)))) s0
              = elems (b_heap (w_backend (world st))) s0
              /\ wf (b_heap (w_backend (assign_logs l
                 (spy.Logs (sink l) (w_backend (world st)) ++ [lg]) (world st)))) s0)
      by done.
    split; [done|]. split; [done|]. split.
    { apply Forall_insert; [|done].
      eapply Forall_impl; [exact Hths|]. intros th [? ?]. split; [done|].
      by eapply holds_record_grown. }
    split.
    { exists (written ++ [lg]), (order ++ [c]).
      split; [by rewrite Hlogs, (assoc_L (++))|]. split.
      - apply Forall2_app; [|constructor; [by eapply sound_grown|constructor]].
        eapply Forall2_impl; [exact Hsound|]. intros ? ? ?. by eapply sound_grown.
      - intros l' Hl'. rewrite <- (assoc_L (++)). simpl. apply Hrest.
        apply (interleaving.Interleave_cons _ i c rest).
        + by rewrite list_lookup_fmap, Hi.
        + by rewrite list_fmap_insert in Hl'. }
    exists i, (mkThread Unlocking (c :: rest)).
    split; [by apply list_lookup_insert_eq|]. split; [done|].
    intros j th' Hne Hj. rewrite list_lookup_insert_ne in Hj by done.
    by eapply Hothers.
  - (* Unlock *)
    inversion Hstep; subst st'; clear Hstep.
    unfold Inv. cbn [world mu threads].
    split; [done|]. split; [done|]. split.
    { apply Forall_insert; [done|]. split; [|done]. by apply Forall_cons in Hen as [_ ?]. }
    split.
    { exists written, order. split; [done|]. split; [done|].
      by rewrite (remaining_insert_kept _ _ _ _ Hi). }
    destruct (mu st) eqn:Hm.
    + destruct Hmu as (k & thk & Hk & Hinside & Hothers).
      assert (i = k) as <-
        by exact (holder_is st k i _ Hothers Hi (fun H => H)).
      apply Forall_lookup. intros j th0 Hj.
      destruct (lookup_insert_thread _ _ _ _ _ Hj) as [[-> ->]|[Hne Hj']]; [done|].
      by eapply Hothers.
    + exfalso. by pose proof (proj1 (Forall_lookup _ _) Hmu _ _ Hi).
Qed.

Lemma init_keeps_Inv w calls :
  wf (b_heap (w_backend w)) (spy.sf_context (log_Facility l)) ->
  Forall (Forall (enabled l w)) calls ->
  Inv l w calls (init w calls).
Proof.
  intros Hwf Hen. unfold Inv, init. cbn [world mu threads].
  split; [done|]. split; [done|]. split.
  { apply Forall_fmap. eapply Forall_impl; [exact Hen|]. intros cs Hcs. by split. }
  split.
  { exists [], []. split; [by rewrite app_nil_r|]. split; [constructor|].
    intros l'. rewrite <- list_fmap_compose.
    replace (remaining ∘ mkThread Calling) with (@id (list Call)) by done.
    by rewrite list_fmap_id. }
  apply Forall_fmap, Forall_true. done.
Qed.

Lemma run_keeps_Inv w0 calls sched st st' :
  Inv l w0 calls st -> run l sched st = Some st' -> Inv l w0 calls st'.
Proof.
  revert st. induction sched as [|i sched IH]; intros st Hinv Hrun; simpl in Hrun.
  - by inversion Hrun; subst.
  - destruct (step l i st) as [st1|] eqn:Hstep; [|done].
    eapply IH; [|done]. by eapply step_keeps_Inv.
Qed.

Lemma finished_nothing_remains th : finished th = true -> remaining th = [].
Proof. destruct th as [[] []]; done. Qed.

Lemma done_nothing_remains ths :
  forallb finished ths = true -> Forall (fun cs => cs = []) (remaining <$> ths).
Proof.
  induction ths as [|th ths IH]; [by constructor|]. cbn [forallb].
  intros [Hth Hths]%andb_true_iff.
  rewrite fmap_cons. constructor; [by apply finished_nothing_remains|by apply IH].
Qed.

(** When all callers have returned, the sink holds what it started with
    followed by the records of all calls, in an order that interleaves the
    callers. *)
Lemma done_records w0 calls st :
  Inv l w0 calls st -> done st = true ->
  exists written order,
    spy.Logs (sink l) (w_backend (world st)) = spy.Logs (sink l) (w_backend w0) ++ written
    /\ interleaving.Interleave calls order
    /\ Forall2 (record_of l (elems (b_heap (w_backend w0))
                               (spy.sf_context (log_Facility l)))
                          (w_backend (world st))) order written.
Proof.
  intros (_ & _ & _ & (written & order & Hlogs & Hsound & Hrest) & _) Hdone.
  exists written, order. split; [done|]. split.
  - rewrite <- (app_nil_r order). apply Hrest.
    apply interleaving.Interleave_nil. by apply done_nothing_remains.
  - eapply Forall2_impl; [exact Hsound|]. by intros c lg [_ ?].
Qed.

Lemma unfinished_caller ths :
  forallb finished ths = false ->
  exists i th, ths !! i = Some th /\ finished th = false.
Proof.
  induction ths as [|th ths IH]; [done|]. cbn [forallb].
  destruct (finished th) eqn:Hth; simpl.
  - intros Hrest. destruct (IH Hrest) as (i & th' & Hi & Hf).
    by exists (S i), th'.
  - intros _. by exists 0, th.
Qed.

Lemma log_to_WriteLog_returns c w :
  exists r w', log_to_WriteLog l c w = (Ret r, w').
Proof. rewrite log_to_WriteLog_eq. destruct (Level_Enabled _ _); cbn zeta; eauto. Qed.

(** No deadlock: while some caller has not returned, some caller can move. *)
Lemma some_caller_moves w0 calls st :
  Inv l w0 calls st -> done st = false -> exists i st', step l i st = Some st'.
Proof.
  intros (_ & _ & Hths & _ & Hmu) Hdone. destruct (mu st) eqn:Hm.
  - destruct Hmu as (i & th & Hi & [Hcalls Hpc] & _).
    exists i. unfold step. rewrite Hi.
    destruct th as [p [|c rest]]; [done|]. destruct p; simpl in *; eauto; done.
  - destruct (unfinished_caller _ Hdone) as (i & th & Hi & Hf).
    pose proof (proj1 (Forall_lookup _ _) Hmu _ _ Hi) as Hout.
    pose proof (proj1 (Forall_lookup _ _) Hths _ _ Hi) as [_ Hrec].
    exists i. unfold step. rewrite Hi, Hm.
    destruct th as [p cs]. unfold outside in Hout. unfold holds_record in Hrec.
    cbn [th_pc th_calls] in *.
    destruct p as [|lg| | |]; try done.
    + destruct cs as [|c rest]; [done|].
      destruct (log_to_WriteLog_returns c (world st)) as ([lg|] & w' & ->); eauto.
    + destruct Hrec as (c & rest & -> & _). eauto.
Qed.

Lemma work_insert_thread ths i th th' :
  ths !! i = Some th ->
  sum_list_with work_of (<[i:=th']> ths) + work_of th
  = sum_list_with work_of ths + work_of th'.
Proof.
  intros Hi. rewrite (insert_take_drop ths i th') by (by eapply lookup_lt_Some).
  rewrite <- (take_drop_middle ths i th Hi) at 3.
  rewrite !sum_list_with_app. simpl. lia.
Qed.

(** Every step is one of the five steps of some call. *)
Lemma step_works st i st' : step l i st = Some st' -> work st' < work st.
Proof.
  unfold step, work. intros Hstep.
  destruct (threads st !! i) as [th|] eqn:Hi; [|done].
  destruct th as [p cs]. cbn [th_pc th_calls] in Hstep.
  destruct cs as [|c rest]; [by destruct p|].
  destruct p as [|lg|lg|lg snap|];
    [destruct (log_to_WriteLog l c (world st)) as [[[?|]| |] ?]
    |destruct (mu st)| | |];
    try done;
    inversion Hstep; subst st'; clear Hstep; cbn [threads];
    match goal with
    | |- context [<[i:=?th']> _] =>
        pose proof (work_insert_thread _ _ _ th' Hi) as Hw
    end;
    revert Hw;
    generalize (sum_list_with work_of (threads st));
    match goal with
    | |- context [sum_list_with work_of ?ths] => generalize (sum_list_with work_of ths)
    end;
    unfold work_of; cbn [th_pc th_calls length]; lia.
Qed.

Lemma run_works sched st st' :
  run l sched st = Some st' -> length sched + work st' <= work st.
Proof.
  revert st. induction sched as [|i sched IH]; intros st Hrun; simpl in Hrun.
  - inversion Hrun. simpl. lia.
  - destruct (step l i st) as [st1|] eqn:Hstep; [|done].
    pose proof (step_works _ _ _ Hstep). pose proof (IH _ Hrun). simpl. lia.
Qed.

Lemma run_then sched1 sched2 st st1 :
  run l sched1 st = Some st1 -> run l (sched1 ++ sched2) st = run l sched2 st1.
Proof.
  revert st. induction sched1 as [|i sched1 IH]; intros st Hrun; simpl in *.
  - by inversion Hrun.
  - destruct (step l i st) as [st'|]; [by apply IH|done].
Qed.

(** From every state of a run the callers can all be brought to return. *)
Lemma callers_return w0 calls st :
  Inv l w0 calls st -> exists sched st', run l sched st = Some st' /\ done st' = true.
Proof.
  remember (work st) as n eqn:Hn. revert st Hn.
  induction (lt_wf n) as [n _ IH]; intros st Hn Hinv.
  destruct (done st) eqn:Hd; [by exists [], st|].
  destruct (some_caller_moves _ _ _ Hinv Hd) as (i & st1 & Hstep).
  destruct (IH (work st1)) with (st := st1) as (sched & st' & Hrun & Hdone).
  - apply step_works in Hstep. lia.
  - done.
  - by eapply step_keeps_Inv.
  - exists (i :: sched), st'. simpl. by rewrite Hstep.
Qed.

Lemma work_of_init w calls : work (init w calls) = 5 * length (concat calls).
Proof.
  unfold work, init. simpl.
  induction calls as [|cs calls IH]; [done|].
  rewrite fmap_cons. cbn [sum_list_with concat]. rewrite IH, length_app.
  unfold work_of. simpl. lia.
Qed.

Lemma length_concat_calls (N M : nat) (calls : list (list Call)) :
  length calls = N -> Forall (fun cs => length cs = M) calls ->
  length (concat calls) = N * M.
Proof.
  intros <- Hall. induction Hall as [|cs calls Hcs _ IH]; [done|].
  simpl. rewrite length_app, IH, Hcs. done.
Qed.

(** A call that no other caller interferes with is the sequential call. *)
Lemma alone_is_log c w :
  run l (replicate (if Level_Enabled (LevelEnabler_level (log_LevelEnabler l) w)
                                     (c_Level c) then 5 else 1) 0)
        (init w [[c]])
  = Some (mkState false (Logger.log l (c_Level c) (c_Msg c) (c_Fields c) w).2
                  [mkThread Calling []]).
Proof.
  rewrite log_splits, log_to_WriteLog_eq.
  destruct (Level_Enabled _ _) eqn:Hen; cbn zeta.
  - cbn [replicate run]. unfold step at 1. cbn [init threads lookup list_lookup fmap list_fmap th_pc th_calls world mu].
    rewrite log_to_WriteLog_eq, Hen. cbn zeta.
    cbn. reflexivity.
  - cbn [replicate run]. unfold step at 1. cbn [init threads lookup list_lookup fmap list_fmap th_pc th_calls world mu].
    rewrite log_to_WriteLog_eq, Hen. reflexivity.
Qed.

(** C9.  [N] goroutines issue [M] calls of [log.log] each (what [Debug],
    [Info], [Warn] and [Error] are) on one logger over a spy facility, at
    levels the logger lets through, under any schedule of their steps: the
    call up to [WriteLog], then [Lock], the read of [s.logs], the
    assignment, [Unlock].  When all callers have returned, the sink holds
    exactly [N * M] records more than before.  Each record is the whole
    record of one call: level and message as the hooks left them, the
    context of the facility followed by the fields of that call; and the
    calls are written in an order that keeps the calls of each caller in
    sequence.  No schedule runs for more than five steps per call, and
    every run can be continued until all callers have returned.  A call run
    without interference leaves the world that the sequential [log]
    leaves. *)
Theorem C9_concurrent_log_calls (N M : nat) (calls : list (list Call)) (w : World) :
  let sf := log_Facility l in
  let ctx := elems (b_heap (w_backend w)) (spy.sf_context sf) in
  wf (b_heap (w_backend w)) (spy.sf_context sf) ->
  length calls = N ->
  Forall (fun cs => length cs = M) calls ->
  Forall (Forall (enabled l w)) calls ->
  (forall sched final,
      run l sched (init w calls) = Some final -> done final = true ->
      exists written order,
        spy.Logs (spy.sf_sink sf) (w_backend (world final))
          = spy.Logs (spy.sf_sink sf) (w_backend w) ++ written
        /\ length written = N * M
        /\ interleaving.Interleave calls order
        /\ Forall2 (record_of l ctx (w_backend (world final))) order written)
  /\ (forall sched st,
        run l sched (init w calls) = Some st ->
        length sched <= 5 * (N * M)
        /\ exists sched' final,
             run l (sched ++ sched') (init w calls) = Some final
             /\ done final = true)
  /\ (forall c w1,
        run l (replicate
                 (if Level_Enabled (LevelEnabler_level (log_LevelEnabler l) w1)
                                   (c_Level c) then 5 else 1) 0)
              (init w1 [[c]])
        = Some (mkState false
                  (Logger.log l (c_Level c) (c_Msg c) (c_Fields c) w1).2
                  [mkThread Calling []])).
Proof.
  intros sf ctx Hwf HN HM Hen. subst sf ctx.
  pose proof (length_concat_calls N M calls HN HM) as Hlen.
  pose proof (init_keeps_Inv w calls Hwf Hen) as Hinit.
  split; [|split].
  - intros sched final Hrun Hdone.
    destruct (done_records _ _ _ (run_keeps_Inv _ _ _ _ _ Hinit Hrun) Hdone)
      as (written & order & Hlogs & Hil & Hrec).
    exists written, order. split; [done|]. split; [|by split].
    rewrite <- (Forall2_length _ _ _ Hrec).
    by rewrite (Interleave_Permutation _ _ Hil).
  - intros sched st Hrun. split.
    + pose proof (run_works _ _ _ Hrun) as Hw. rewrite work_of_init, Hlen in Hw. lia.
    + destruct (callers_return _ _ _ (run_keeps_Inv _ _ _ _ _ Hinit Hrun))
        as (sched' & final & Hrun' & Hd).
      exists sched', final. split; [|done]. by rewrite (run_then _ _ _ _ Hrun).
  - apply alone_is_log.
Qed.
End Goroutines.

Lemma C9_witness :
  let l := mkLogger (FixedLevel InfoLevel) sf_ab false [shouting_hook] Stderr in
  let calls :=
    [[goroutines.mkCall InfoLevel "a1" [fld "x"]; goroutines.mkCall ErrorLevel "a2" []];
     [goroutines.mkCall WarnLevel "b1" [fld "y"]; goroutines.mkCall InfoLevel "b2" []]] in
  let sched := [0; 1; 0; 0; 0; 0; 0; 1; 1; 1; 1; 1; 1; 1; 1; 1; 0; 0; 0; 0] in
  wf (b_heap (w_backend w_ab)) (spy.sf_context (log_Facility l))
  /\ length calls = 2
  /\ Forall (fun cs => length cs = 2) calls
  /\ Forall (Forall (goroutines.enabled l w_ab)) calls
  /\ exists final,
       goroutines.run (G:=doubling) l sched (goroutines.init w_ab calls) = Some final
       /\ goroutines.done final = true
       /\ Log_view (w_backend (goroutines.world final))
            <$> spy.Logs 0 (w_backend (goroutines.world final))
          = [(InfoLevel, "a1!", [fld "a"; fld "b"; fld "x"]);
             (WarnLevel, "b1!", [fld "a"; fld "b"; fld "y"]);
             (InfoLevel, "b2!", [fld "a"; fld "b"]);
             (ErrorLevel, "a2!", [fld "a"; fld "b"])]
       /\ exists written order,
            spy.Logs 0 (w_backend (goroutines.world final)) = spy.Logs 0 b_ab ++ written
            /\ length written = 2 * 2
            /\ interleaving.Interleave calls order.
Proof.
  intros l calls sched.
  assert (Hwf : wf (b_heap (w_backend w_ab)) (spy.sf_context (log_Facility l)))
    by exact wf_sf_ab.
  assert (HN : length calls = 2) by reflexivity.
  assert (HM : Forall (fun cs => length cs = 2) calls) by (repeat constructor).
  assert (Hen : Forall (Forall (goroutines.enabled l w_ab)) calls)
    by (repeat constructor).
  split; [exact Hwf|]. split; [exact HN|]. split; [exact HM|]. split; [exact Hen|].
  destruct (goroutines.run (G:=doubling) l sched (goroutines.init w_ab calls))
    as [final|] eqn:Hrun; [|by vm_compute in Hrun].
  assert (Hfinal :
    goroutines.done final = true
    /\ Log_view (w_backend (goroutines.world final))
         <$> spy.Logs 0 (w_backend (goroutines.world final))
       = [(InfoLevel, "a1!", [fld "a"; fld "b"; fld "x"]);
          (WarnLevel, "b1!", [fld "a"; fld "b"; fld "y"]);
          (InfoLevel, "b2!", [fld "a"; fld "b"]);
          (ErrorLevel, "a2!", [fld "a"; fld "b"])]).
  { pose proof Hrun as Hrun'. vm_compute in Hrun'. injection Hrun' as <-.
    split; vm_compute; reflexivity. }
  destruct Hfinal as [Hdone Hviews].
  exists final. split; [reflexivity|]. split; [exact Hdone|]. split; [exact Hviews|].
  destruct (proj1 (C9_concurrent_log_calls (G:=doubling) l 2 2 calls w_ab Hwf HN HM Hen)
              sched final Hrun Hdone)
    as (written & order & Hlogs & Hlen & Hil & _).
  exists written, order. split; [exact Hlogs|]. split; [exact Hlen|]. exact Hil.
Defined.

(** * The constructor of the spy logger *)

Section SpyNew.
Context {G : GrowthPolicy}.

Lemma spy_New_sink_fresh (options : list (Option spy.spyFacility)) (st : spy.Store) :
  (spy.New options st).1.2 ∉ spy.st_sinks st ∪ dom (b_sinks (spy.st_backend st)).
Proof. unfold spy.New. cbn [fst snd]. apply is_fresh. Qed.



(** X20.  Two spy loggers made one after the other have different sinks,
    whatever their options. *)
Theorem spy_New_twice_differ (o1 o2 : list (Option spy.spyFacility)) (st : spy.Store) :
  (spy.New o1 st).1.2 <> (spy.New o2 (spy.New o1 st).2).1.2.
Proof.
  intros Heq.
  pose proof (spy_New_sink_fresh o2 (spy.New o1 st).2) as Hfresh.
  rewrite <- Heq in Hfresh. apply Hfresh.
  unfold spy.New. cbn [fst snd spy.st_sinks]. set_solver.
Qed.
End SpyNew.

(** The spy facility of the examples is the one of the first [spy.New]; the
    next [spy.New] gets another sink. *)
Example spy_New_after_spy0 :
  let first := spy.New [] (spy.mkStore b0 ∅) in
  let second := spy.New [] first.2 in
  log_Facility first.1.1 = spy0
  /\ first.1.2 = 0
  /\ second.1.2 = 1.
Proof. repeat split. Qed.

